(** * XBRL taxonomy hierarchy construction: a shallow embedding

    This development embeds the relationship-hierarchy engine of
    [dimension_parser.py] and [taxonomy_parser.py] and proves the
    properties stated about it.

    Conventions of the embedding:
    - a Python [dict] / [OrderedDict] whose iteration order is observable
      is an association list in insertion order ([odict]);
    - a Python [set] is a [gset]; iterating over it goes through
      [elements], whose order is as unspecified as Python's, so nothing
      below is stated about the order of roots;
    - the [visited] set of the recursive builders is one mutable object
      shared by all calls of a descent, so it is threaded through the
      calls as state;
    - a Python exception is the [Raises] outcome; recursion is bounded by
      fuel, and [OutOfFuel] is shown never to happen;
    - the builders of [dimension_parser.py] come twice: as such they run
      on a stack without bound, and with the suffix [_within] they run
      under the interpreter's recursion limit and raise [RecursionError]
      where it is reached; what the second returns, the first returns. *)

From Stdlib Require Import String Ascii List Arith Lia.
From stdpp Require Import base option list strings gmap sets pretty.

Set Warnings "-clear-no-such-hyp".

(** ** Outcomes of a Python call *)

Inductive exn : Type :=
| AttributeError
| TypeError
| RecursionError.

Inductive outcome (A : Type) : Type :=
| Returns (a : A)
| Raises (e : exn)
| OutOfFuel.

Arguments Returns {A} a.
Arguments Raises {A} e.
Arguments OutOfFuel {A}.

Definition outcome_bind {A B : Type} (f : A → outcome B) (o : outcome A) : outcome B :=
  match o with
  | Returns a => f a
  | Raises e => Raises e
  | OutOfFuel => OutOfFuel
  end.

#[export] Instance outcome_ret : MRet outcome := @Returns.
#[export] Instance outcome_mbind : MBind outcome := @outcome_bind.

(** A [for] loop whose body may raise: the state is threaded left to
    right and the first exception leaves the loop. *)
Fixpoint for_each {A S : Type} (body : S → A → outcome S) (xs : list A) (s : S) : outcome S :=
  match xs with
  | [] => Returns s
  | x :: xs' => s' ← body s x; for_each body xs' s'
  end.

(** ** Insertion-ordered dictionaries *)

Definition odict (V : Type) : Type := list (string * V).

Section odict.
Context {V : Type}.

Fixpoint od_get (k : string) (d : odict V) : option V :=
  match d with
  | [] => None
  | (k', v) :: d' => if decide (k = k') then Some v else od_get k d'
  end.

(** [k in d] *)
Definition od_mem (k : string) (d : odict V) : bool :=
  bool_decide (k ∈ d.*1).

(** [d[k] = v]: an existing key keeps its position, a new key goes last. *)
Fixpoint od_set (k : string) (v : V) (d : odict V) : odict V :=
  match d with
  | [] => [(k, v)]
  | (k', v') :: d' =>
      if decide (k = k') then (k, v) :: d' else (k', v') :: od_set k v d'
  end.

(** In-place update of the value stored under [k] (no effect when absent). *)
Fixpoint od_alter (f : V → V) (k : string) (d : odict V) : odict V :=
  match d with
  | [] => []
  | (k', v') :: d' =>
      if decide (k = k') then (k', f v') :: d' else (k', v') :: od_alter f k d'
  end.

Definition od_keys (d : odict V) : list string := d.*1.
Definition od_values (d : odict V) : list V := d.*2.

(** [defaultdict.__getitem__]: a missing key is created with the default. *)
Definition od_vivify (dflt : V) (k : string) (d : odict V) : odict V :=
  if od_mem k d then d else d ++ [(k, dflt)].
End odict.

(** ** Objects handed in by the taxonomy engine *)

Module Arelle.

Record QName : Type := mkQName {
  localName : string;
  (** [str(qname)] *)
  qname_str : string
}.

(** The [qname] attribute of an object: it may not exist at all
    ([hasattr] is false), exist and hold [None], or hold a [QName]. *)
Inductive qname_attr : Type :=
| NoAttr
| AttrNone
| AttrQName (q : QName).

Record ModelObject : Type := mkObject {
  qname : qname_attr;
  isAbstract : bool
}.

Record ModelRelationship : Type := mkRel {
  fromModelObject : option ModelObject;
  toModelObject : option ModelObject
}.

(** [hasattr(obj, 'qname')] *)
Definition hasattr_qname (o : ModelObject) : bool :=
  match qname o with NoAttr => false | _ => true end.

(** [getattr(obj, 'qname', None)], read as a truth value: [None] is
    false, and the engine's [QName] is false when its local name is
    empty. *)
Definition getattr_qname_truthy (o : ModelObject) : bool :=
  match qname o with
  | AttrQName q => bool_decide (localName q ≠ "")
  | _ => false
  end.

(** [obj.qname is None], for an object that has the attribute. *)
Definition qname_is_none (o : ModelObject) : bool :=
  match qname o with AttrNone => true | _ => false end.

(** [obj.qname.localName], for an object that has the attribute. *)
Definition qname_localName (o : ModelObject) : outcome string :=
  match qname o with
  | AttrQName q => Returns (localName q)
  | _ => Raises AttributeError
  end.

(** [str(obj.qname)]; [str(None)] is the text None. *)
Definition str_qname (o : ModelObject) : string :=
  match qname o with
  | AttrQName q => qname_str q
  | _ => "None"
  end.

End Arelle.

(** ** [str.split] on one separator character and the last segment *)

Fixpoint split (sep : ascii) (s : string) : list string :=
  match s with
  | EmptyString => [EmptyString]
  | String c s' =>
      if decide (c = sep) then EmptyString :: split sep s'
      else match split sep s' with
           | [] => [String c EmptyString]
           | seg :: segs => String c seg :: segs
           end
  end.

(** [s.split('/')[-1]] *)
Definition last_segment (s : string) : string :=
  List.last (split "/"%char s) EmptyString.

(** ** [dimension_parser.py] *)

Module DimensionParser.
Import Arelle.

(** A value of [parent_child_map]. The [children] OrderedDict maps a
    child name to the very dictionary stored under that name in
    [parent_child_map]; those values are never read, so the keys are
    kept, in insertion order. *)
Record entry : Type := mkEntry {
  entry_abstract : bool;
  entry_children : list string;
  entry_parent : option string
}.

(** The [defaultdict] factory. *)
Definition default_entry : entry := mkEntry false [] None.

Definition set_abstract (b : bool) (e : entry) : entry :=
  mkEntry b (entry_children e) (entry_parent e).

Definition set_parent (p : string) (e : entry) : entry :=
  mkEntry (entry_abstract e) (entry_children e) (Some p).

(** [e["children"][c] = ...]: a key already there keeps its place. *)
Definition add_child (c : string) (e : entry) : entry :=
  mkEntry (entry_abstract e)
          (if bool_decide (c ∈ entry_children e) then entry_children e
           else entry_children e ++ [c])
          (entry_parent e).

Definition role_prefix (elr : string) : string :=
  "[" +:+ last_segment elr +:+ "] ".

(** One turn of the loop over [relationship_set.modelRelationships]. *)
Definition record_edge (elr : string) (parent_child_map : odict entry)
    (rel : ModelRelationship) : outcome (odict entry) :=
  match fromModelObject rel, toModelObject rel with
  | Some parent, Some child =>
      if hasattr_qname parent && hasattr_qname child then
        parent_local ← qname_localName parent;
        let parent_name := role_prefix elr +:+ parent_local in
        child_name ← qname_localName child;
        let m1 :=
          if od_mem parent_name parent_child_map then parent_child_map
          else od_alter (set_abstract (isAbstract parent)) parent_name
                 (od_vivify default_entry parent_name parent_child_map) in
        let m2 :=
          if od_mem child_name m1 then m1
          else od_set child_name (mkEntry (isAbstract child) [] None) m1 in
        let m3 :=
          od_alter (set_parent parent_name) child_name
            (od_vivify default_entry child_name m2) in
        let m4 :=
          od_alter (add_child child_name) parent_name
            (od_vivify default_entry parent_name m3) in
        Returns m4
      else Returns parent_child_map
  | _, _ => Returns parent_child_map
  end.

(** The whole first loop; a relationship set that is [None] or has no
    relationships leaves the map empty. *)
Definition build_map (relationship_set : option (list ModelRelationship))
    (elr : string) : outcome (odict entry) :=
  for_each (record_edge elr) (default [] relationship_set) [].

#[warnings="-register-all"]
Inductive Node : Type := mkNode {
  name : string;
  abstract : bool;
  children : list Node
}.

Section build.
Variable parent_child_map : odict entry.

(** The loop over [node_data["children"].items()], for a given way
    [recurse] of building one child. *)
Fixpoint build_children
    (recurse : string → gset string → outcome (option Node * gset string))
    (child_names : list string) (built : list Node) (visited : gset string)
    : outcome (list Node * gset string) :=
  match child_names with
  | [] => Returns (built, visited)
  | child_name :: rest =>
      if od_mem child_name parent_child_map then
        '(child_hierarchy, visited) ← recurse child_name visited;
        build_children recurse rest
          (match child_hierarchy with
           | Some c => built ++ [c]
           | None => built
           end) visited
      else build_children recurse rest built visited
  end.

(** [parent_child_map.get(node_name, {"abstract": False, "children": {}})] *)
Definition get_node_data (node_name : string) : entry :=
  default (mkEntry false [] None) (od_get node_name parent_child_map).

Fixpoint build_hierarchy (fuel : nat) (node_name : string) (visited : gset string)
    : outcome (option Node * gset string) :=
  if decide (node_name ∈ visited) then Returns (None, visited)
  else match fuel with
       | 0 => OutOfFuel
       | S fuel' =>
           let visited := visited ∪ {[node_name]} in
           let node_data := get_node_data node_name in
           '(built, visited) ←
             build_children (build_hierarchy fuel') (entry_children node_data) [] visited;
           Returns (Some (mkNode node_name (entry_abstract node_data) built),
                    visited ∖ {[node_name]})
       end.

Definition all_parents : gset string := list_to_set (od_keys parent_child_map).

Definition all_children : gset string :=
  list_to_set (od_values parent_child_map ≫= entry_children).

Definition root_nodes : gset string :=
  let roots := all_parents ∖ all_children in
  if decide (roots = ∅) then all_parents else roots.

(** Enough fuel for any descent: a path never repeats a name and only
    enters keys of the map. *)
Definition enough_fuel : nat := S (size all_parents).

(** [print_hierarchy] only walks the tree; it fails on a value that is
    not a node. *)
Definition print_hierarchy (structure : option Node) : outcome Node :=
  match structure with
  | Some node => Returns node
  | None => Raises TypeError
  end.

(** [hierarchy[root] = build_hierarchy(root)], with a fresh [visited]. *)
Definition build_root (hierarchy : odict (option Node)) (root : string)
    : outcome (odict (option Node)) :=
  '(structure, _) ← build_hierarchy enough_fuel root ∅;
  Returns (od_set root structure hierarchy).

(** One turn of the closing loop over [hierarchy.items()]. *)
Definition walk_root (walked : odict Node) (item : string * option Node)
    : outcome (odict Node) :=
  node ← print_hierarchy item.2;
  Returns (walked ++ [(item.1, node)]).

(** Lines 82 to 103: the roots, a tree per root, then the walk over
    what was built. *)
Definition build_forest : outcome (odict Node) :=
  hierarchy ← for_each build_root (elements root_nodes) [];
  for_each walk_root hierarchy [].

(** **** Under the recursion limit

    Every call of [build_hierarchy] and of [print_hierarchy] takes a
    frame of the interpreter's stack, also a call that returns at once
    because its node is on the path; the calls they make otherwise are
    to built-ins, which take none. [frames] is the number of nested
    calls the interpreter still allows. *)
Fixpoint build_hierarchy_within (frames : nat) (node_name : string)
    (visited : gset string) : outcome (option Node * gset string) :=
  match frames with
  | 0 => Raises RecursionError
  | S frames' =>
      if decide (node_name ∈ visited) then Returns (None, visited)
      else
        let visited := visited ∪ {[node_name]} in
        let node_data := get_node_data node_name in
        '(built, visited) ←
          build_children (build_hierarchy_within frames')
            (entry_children node_data) [] visited;
        Returns (Some (mkNode node_name (entry_abstract node_data) built),
                 visited ∖ {[node_name]})
  end.

Fixpoint print_hierarchy_within (frames : nat) (node : Node) : outcome unit :=
  match frames with
  | 0 => Raises RecursionError
  | S frames' =>
      for_each (λ _ child, print_hierarchy_within frames' child) (children node) ()
  end.

Definition build_root_within (frames : nat) (hierarchy : odict (option Node))
    (root : string) : outcome (odict (option Node)) :=
  '(structure, _) ← build_hierarchy_within frames root ∅;
  Returns (od_set root structure hierarchy).

Definition walk_root_within (frames : nat) (walked : odict Node)
    (item : string * option Node) : outcome (odict Node) :=
  match frames, item.2 with
  | 0, _ => Raises RecursionError
  | _, None => Raises TypeError
  | _, Some node =>
      _ ← print_hierarchy_within frames node;
      Returns (walked ++ [(item.1, node)])
  end.

Definition build_forest_within (frames : nat) : outcome (odict Node) :=
  hierarchy ← for_each (build_root_within frames) (elements root_nodes) [];
  for_each (walk_root_within frames) hierarchy [].
End build.

Definition process_relationships (arcrole : string)
    (relationship_set : option (list ModelRelationship)) (elr : string)
    : outcome (odict Node) :=
  parent_child_map ← build_map relationship_set elr;
  build_forest parent_child_map.

(** The same under the recursion limit. [spare] is the number of nested
    calls the interpreter allows below a call that
    [process_relationships] makes; that call itself is taken to be
    allowed, as the loop over the relationships makes one when it creates
    an entry of the map. *)
Definition process_relationships_within (spare : nat) (arcrole : string)
    (relationship_set : option (list ModelRelationship)) (elr : string)
    : outcome (odict Node) :=
  parent_child_map ← build_map relationship_set elr;
  build_forest_within parent_child_map (S spare).

(** *** [parse_dimensions] *)

Definition dim_arcroles : list string :=
  [ "http://xbrl.org/int/dim/arcrole/hypercube-dimension";
    "http://xbrl.org/int/dim/arcrole/dimension-domain";
    "http://xbrl.org/int/dim/arcrole/domain-member" ].

(** What [parse_dimensions] reads of [model_xbrl]: the relationship set of
    an arc-role, its [linkRoleUris] in the order the loop meets them, and
    the relationship set of an arc-role within a link role. *)
Record ModelXbrl : Type := mkModelXbrl {
  relationshipSet : string → option (list ModelRelationship);
  linkRoleUris : string → list string;
  relationshipSet_in : string → string → option (list ModelRelationship)
}.

(** [dimensions.update(arcrole_hierarchy)]: a root already there gets the
    new tree in place of the old one. *)
Definition update (dimensions arcrole_hierarchy : odict Node) : odict Node :=
  fold_left (λ d item, od_set item.1 item.2 d) arcrole_hierarchy dimensions.

Definition parse_dimensions (model_xbrl : ModelXbrl) : outcome (odict Node) :=
  for_each
    (λ dimensions arcrole,
       match relationshipSet model_xbrl arcrole with
       | Some (_ :: _) =>
           for_each
             (λ dimensions elr,
                arcrole_hierarchy ←
                  process_relationships arcrole
                    (relationshipSet_in model_xbrl arcrole elr) elr;
                Returns (update dimensions arcrole_hierarchy))
             (linkRoleUris model_xbrl arcrole) dimensions
       | _ => Returns dimensions
       end)
    dim_arcroles [].

(** The same under the recursion limit, [spare] being what it is for
    the calls of [process_relationships]. *)
Definition parse_dimensions_within (spare : nat) (model_xbrl : ModelXbrl)
    : outcome (odict Node) :=
  for_each
    (λ dimensions arcrole,
       match relationshipSet model_xbrl arcrole with
       | Some (_ :: _) =>
           for_each
             (λ dimensions elr,
                arcrole_hierarchy ←
                  process_relationships_within spare arcrole
                    (relationshipSet_in model_xbrl arcrole elr) elr;
                Returns (update dimensions arcrole_hierarchy))
             (linkRoleUris model_xbrl arcrole) dimensions
       | _ => Returns dimensions
       end)
    dim_arcroles [].

(** *** Reading a built tree *)

(** Every name of a tree, the root's first. *)
Fixpoint subtree_names (n : Node) : list string :=
  name n :: (children n ≫= subtree_names).

(** Every node of a tree, the root first. *)
Fixpoint subnodes (n : Node) : list Node :=
  n :: (children n ≫= subnodes).

(** The names strictly below a node. *)
Definition descendant_names (n : Node) : list string :=
  children n ≫= subtree_names.

(** Number of levels: 1 for a leaf. *)
Fixpoint height (n : Node) : nat :=
  S (max_list (height <$> children n)).

(** How often a name occurs in a tree. *)
Definition occurrences (x : string) (n : Node) : nat :=
  length (filter (λ y, y = x) (subtree_names n)).

End DimensionParser.

(** ** [taxonomy_parser.py] *)

Module TaxonomyParser.
Import Arelle.

(** An element of a parent's [children] list. *)
Record child_ref : Type := mkChild {
  name : string;
  child_abstract : bool
}.

(** A value of the flat [hierarchy] dictionary. *)
Record details : Type := mkDetails {
  abstract : bool;
  children : list child_ref
}.

(** An element of [skipped_relationships]. *)
Definition skipped : Type := option ModelObject * option ModelObject * string.

(** [hierarchy[k]["children"]] *)
Definition children_of (k : string) (hierarchy : odict details) : list child_ref :=
  from_option children [] (od_get k hierarchy).

Definition append_child (c : child_ref) (d : details) : details :=
  mkDetails (abstract d) (children d ++ [c]).

(** One turn of the loop over [relationship_set.modelRelationships]. *)
Definition record_edge (state : odict details * list skipped) (rel : ModelRelationship)
    : odict details * list skipped :=
  let '(hierarchy, skipped_relationships) := state in
  match fromModelObject rel, toModelObject rel with
  | Some parent, Some child =>
      if negb (getattr_qname_truthy parent) || negb (getattr_qname_truthy child) then
        (hierarchy, skipped_relationships ++ [(Some parent, Some child, "Missing QName")])
      else
        let parent_name := str_qname parent in
        let child_name := str_qname child in
        let h1 :=
          if od_mem parent_name hierarchy then hierarchy
          else od_set parent_name (mkDetails (isAbstract parent) []) hierarchy in
        let h2 :=
          if existsb (λ c, bool_decide (name c = child_name)) (children_of parent_name h1)
          then h1
          else od_alter (append_child (mkChild child_name (isAbstract child))) parent_name h1 in
        (h2, skipped_relationships)
  | parent, child =>
      (hierarchy, skipped_relationships ++ [(parent, child, "Parent or child is None")])
  end.

(** The function body up to its [return]: the hierarchy and the local
    list [skipped_relationships], of which Python prints the length. *)
Definition process_relationships_state (arcrole : string)
    (relationship_set : option (list ModelRelationship))
    : odict details * list skipped :=
  fold_left record_edge (default [] relationship_set) ([], []).

Definition process_relationships (arcrole : string)
    (relationship_set : option (list ModelRelationship)) : odict details :=
  (process_relationships_state arcrole relationship_set).1.

(** *** The dimension merge of [parse_taxonomy] *)

Definition dim_arcroles : list string :=
  [ "http://xbrl.org/int/dim/arcrole/hypercube-dimension";
    "http://xbrl.org/int/dim/arcrole/dimension-domain";
    "http://xbrl.org/int/dim/arcrole/domain-member" ].

(** [d["children"].extend(more)] *)
Definition extend_children (more : list child_ref) (d : details) : details :=
  mkDetails (abstract d) (children d ++ more).

(** One turn of the loop over [dimensions[arcrole].items()]. The
    dictionary stored on first sight is the scope's own; what it is
    extended with later is seen through [unified_dimensions] only,
    because [dimensions] is not read again. *)
Definition merge_parent (unified_dimensions : odict details) (item : string * details)
    : odict details :=
  let '(parent, det) := item in
  if od_mem parent unified_dimensions
  then od_alter (extend_children (children det)) parent unified_dimensions
  else od_set parent det unified_dimensions.

Definition merge_scope (unified_dimensions scope : odict details) : odict details :=
  fold_left merge_parent scope unified_dimensions.

(** The loop of [parse_taxonomy] over [dim_arcroles], which makes the
    dimensions of its result; [relationshipSet] stands for
    [model_xbrl.relationshipSet]. *)
Definition parse_taxonomy_dimensions
    (relationshipSet : string → option (list ModelRelationship)) : odict details :=
  fold_left (λ unified_dimensions arcrole,
               match relationshipSet arcrole with
               | Some rels =>
                   merge_scope unified_dimensions (process_relationships arcrole (Some rels))
               | None => unified_dimensions
               end)
            dim_arcroles [].

(** *** The formula graph walker *)

(** A value of a formula hierarchy dictionary; each child is a
    dictionary of its own. *)
#[warnings="-register-all"]
Inductive formula_entry : Type :=
  FEntry (type : string) (label : option string)
         (formula_children : list (list (string * formula_entry))).

Definition append_formula_child (c : odict formula_entry) (e : formula_entry)
    : formula_entry :=
  match e with FEntry t l cs => FEntry t l (cs ++ [c]) end.

Definition default_max_depth : nat := 100.

Section formula.
(** Formula objects, compared by identity. *)
Context {Obj : Type} `{Countable Obj}.
Variable xlinkLabel : Obj → option string.
Variable localName : Obj → string.
(** [relationship_set.fromModelObject(obj)], each relationship given
    by its [toModelObject]; [None] is a relationship set that is
    false. *)
Variable relationship_set : option (Obj → list (option Obj)).

(** [obj.xlinkLabel or str(obj.localName)] *)
Definition obj_name (obj : Obj) : string :=
  match xlinkLabel obj with
  | Some l => if decide (l = "") then localName obj else l
  | None => localName obj
  end.

(** The loop over the outgoing relationships of the object stored
    under [parent_name]. *)
Fixpoint visit_children
    (recurse : Obj → odict formula_entry → gset Obj
               → outcome (odict formula_entry * gset Obj))
    (parent_name : string) (targets : list (option Obj))
    (hierarchy : odict formula_entry) (visited : gset Obj)
    : outcome (odict formula_entry * gset Obj) :=
  match targets with
  | [] => Returns (hierarchy, visited)
  | None :: rest => visit_children recurse parent_name rest hierarchy visited
  | Some child :: rest =>
      '(child_hierarchy, visited) ← recurse child [] visited;
      visit_children recurse parent_name rest
        (od_alter (append_formula_child child_hierarchy) parent_name hierarchy)
        visited
  end.

Fixpoint process_formula_object (fuel : nat) (obj : Obj)
    (hierarchy : odict formula_entry) (visited : gset Obj)
    (depth max_depth : nat) : outcome (odict formula_entry * gset Obj) :=
  if decide (max_depth < depth) then Returns (hierarchy, visited)
  else if decide (obj ∈ visited) then Returns (hierarchy, visited)
  else match fuel with
       | 0 => OutOfFuel
       | S fuel' =>
           let visited := visited ∪ {[obj]} in
           let hierarchy :=
             if od_mem (obj_name obj) hierarchy then hierarchy
             else od_set (obj_name obj)
                    (FEntry (localName obj) (xlinkLabel obj) []) hierarchy in
           '(hierarchy, visited) ←
             match relationship_set with
             | Some from =>
                 visit_children
                   (λ child child_hierarchy visited,
                      process_formula_object fuel' child child_hierarchy visited
                        (S depth) max_depth)
                   (obj_name obj) (from obj) hierarchy visited
             | None => Returns (hierarchy, visited)
             end;
           Returns (hierarchy, visited ∖ {[obj]})
       end.

(** A call as [parse_formula] makes it: fresh [visited], depth 0 and
    the default bound. No descent is longer than the bound plus one. *)
Definition process_formula_root (obj : Obj) (hierarchy : odict formula_entry)
    : outcome (odict formula_entry * gset Obj) :=
  process_formula_object (S default_max_depth) obj hierarchy ∅ 0 default_max_depth.
End formula.

(** Every key of a formula hierarchy, outermost first. *)
Fixpoint entry_labels (e : formula_entry) : list string :=
  match e with
  | FEntry _ _ cs => cs ≫= (λ d, d ≫= (λ kv, kv.1 :: entry_labels kv.2))
  end.

Definition hierarchy_labels (h : odict formula_entry) : list string :=
  h ≫= (λ kv, kv.1 :: entry_labels kv.2).

(** *** [parse_formula] *)

Definition formula_arcroles : list string :=
  [ "http://xbrl.org/arcrole/2008/assertion-set";
    "http://xbrl.org/arcrole/2008/variable-set";
    "http://xbrl.org/arcrole/2008/variable-set-filter" ].

(** [formula_hierarchy]: a dictionary keyed by [root.xlinkLabel], which
    may be [None], in insertion order. *)
Definition formula_dict : Type := list (option string * odict formula_entry).

Fixpoint fd_get (k : option string) (d : formula_dict) : option (odict formula_entry) :=
  match d with
  | [] => None
  | (k', v) :: d' => if decide (k = k') then Some v else fd_get k d'
  end.

Fixpoint fd_set (k : option string) (v : odict formula_entry) (d : formula_dict)
    : formula_dict :=
  match d with
  | [] => [(k, v)]
  | (k', v') :: d' =>
      if decide (k = k') then (k, v) :: d' else (k', v') :: fd_set k v d'
  end.

Definition fd_mem (k : option string) (d : formula_dict) : bool :=
  bool_decide (k ∈ d.*1).

Section parse_formula.
Context {Obj : Type} `{Countable Obj}.
Variable xlinkLabel : Obj → option string.
Variable localName : Obj → string.
(** [model_xbrl.relationshipSet(arcrole)], as in the section above, for
    each formula arc-role. *)
Variable relationshipSet : string → option (Obj → list (option Obj)).
(** [rootFormulaObjects(model_xbrl)], in the order the loops meet them. *)
Variable root_objects : list Obj.

(** One turn of the loop over [root_objects]. The walk works on the
    dictionary stored under the root's label, so what it returns is what
    is stored there afterwards. *)
Definition visit_root (from : Obj → list (option Obj))
    (formula_hierarchy : formula_dict) (root : Obj) : outcome formula_dict :=
  let formula_hierarchy :=
    if fd_mem (xlinkLabel root) formula_hierarchy then formula_hierarchy
    else fd_set (xlinkLabel root) [] formula_hierarchy in
  '(hierarchy, _) ←
    process_formula_root xlinkLabel localName (Some from) root
      (default [] (fd_get (xlinkLabel root) formula_hierarchy));
  Returns (fd_set (xlinkLabel root) hierarchy formula_hierarchy).

Definition parse_formula : outcome formula_dict :=
  for_each
    (λ formula_hierarchy arcrole,
       match relationshipSet arcrole with
       | Some from => for_each (visit_root from) root_objects formula_hierarchy
       | None => Returns formula_hierarchy
       end)
    formula_arcroles [].
End parse_formula.

End TaxonomyParser.

(** ** Vocabulary of the statements about [dimension_parser.py] *)

Module DimensionSpec.
Import Arelle DimensionParser.

(** The names line 28 to 30 give to the two ends of a relationship that
    passes the validation with real qualified names. *)
Definition named_edge (elr : string) (rel : ModelRelationship) : option (string * string) :=
  match fromModelObject rel, toModelObject rel with
  | Some parent, Some child =>
      match qname parent, qname child with
      | AttrQName qp, AttrQName qc =>
          Some (role_prefix elr +:+ localName qp, localName qc)
      | _, _ => None
      end
  | _, _ => None
  end.

Definition named_edges (elr : string) (rels : list ModelRelationship)
    : list (string * string) :=
  omap (named_edge elr) rels.

(** Every child recorded in the map comes from an edge of [edges]. *)
Definition children_sound (edges : list (string * string)) (m : odict entry) : Prop :=
  ∀ k e c, (k, e) ∈ m → c ∈ entry_children e → (k, c) ∈ edges.

(** Every key of the map is an end of an edge of [edges]. *)
Definition keys_sound (edges : list (string * string)) (m : odict entry) : Prop :=
  ∀ k, k ∈ m.*1 → k ∈ edges.*1 ∨ k ∈ edges.*2.


(** What a tree built for [node] with the path [visited] looks like. *)
Record built_from (pcm : odict entry) (visited : gset string) (node : string)
    (t : Node) : Prop := {
  built_name : name t = node;
  built_off_path : ∀ x, x ∈ subtree_names t → x ∉ visited;
  built_acyclic : ∀ n, n ∈ subnodes t → name n ∉ descendant_names n;
  built_abstract :
    ∀ n, n ∈ subnodes t → abstract n = entry_abstract (get_node_data pcm (name n));
  built_children :
    ∀ n c, n ∈ subnodes t → c ∈ children n →
           name c ∈ entry_children (get_node_data pcm (name n))
}.

(** No bare child name of the input equals a prefixed parent name of the
    input. XML local names contain no bracket, so this holds of every
    taxonomy; a Python string could break it. *)
Definition bare_never_prefixed (elr : string) (rels : list ModelRelationship) : Prop :=
  Forall (λ kc : string * string,
            Forall (λ kc' : string * string, kc.2 ≠ kc'.1) (named_edges elr rels))
         (named_edges elr rels).

Definition leaf (n : Node) : Prop := children n = [].

(** [k] and [c] are the names lines 28 to 30 give to the parent and to
    the child of one relationship of the input. *)
Definition names_an_edge (elr : string) (rels : list ModelRelationship)
    (k c : string) : Prop :=
  ∃ rel parent child qp qc,
    rel ∈ rels
    ∧ fromModelObject rel = Some parent ∧ toModelObject rel = Some child
    ∧ qname parent = AttrQName qp ∧ qname child = AttrQName qc
    ∧ k = ("[" +:+ last_segment elr +:+ "] ") +:+ localName qp
    ∧ c = localName qc.

Definition starts_with_bracket (s : string) : bool :=
  match s with
  | String "["%char _ => true
  | _ => false
  end.

(** A record the validation of line 24 sends to [continue]: an end is
    missing or has no [qname] attribute. *)
Definition dropped (rel : ModelRelationship) : bool :=
  match fromModelObject rel, toModelObject rel with
  | Some parent, Some child => negb (hasattr_qname parent && hasattr_qname child)
  | _, _ => true
  end.

(** A record the loop of [process_relationships] dereferences although
    its [qname] is [None]. *)
Definition null_qname (rel : ModelRelationship) : bool :=
  match fromModelObject rel, toModelObject rel with
  | Some parent, Some child =>
      hasattr_qname parent && hasattr_qname child
      && (qname_is_none parent || qname_is_none child)
  | _, _ => false
  end.

End DimensionSpec.

(** ** Vocabulary of the statements about [taxonomy_parser.py] *)

Module TaxonomySpec.
Import Arelle TaxonomyParser.

(** The entry [process_relationships] puts on [skipped_relationships]
    for a record it excludes; [None] for a record it keeps. *)
Definition skip_entry (rel : ModelRelationship) : option skipped :=
  match fromModelObject rel, toModelObject rel with
  | Some parent, Some child =>
      if negb (getattr_qname_truthy parent) || negb (getattr_qname_truthy child)
      then Some (Some parent, Some child, "Missing QName")
      else None
  | parent, child => Some (parent, child, "Parent or child is None")
  end.

Definition kept (rel : ModelRelationship) : bool :=
  bool_decide (skip_entry rel = None).

End TaxonomySpec.

(** ** Vocabulary of the statements about the formula walker *)

Module FormulaSpec.
Import TaxonomyParser.

(** A call of the walker hands the path back as it got it: it returns
    with the same [visited], it does not raise, and it runs out of fuel
    only in the case [short]. *)
Definition hands_back {Obj : Type} `{Countable Obj} (short : Prop) (visited : gset Obj)
    (o : outcome (odict formula_entry * gset Obj)) : Prop :=
  match o with
  | Returns r => r.2 = visited
  | Raises _ => False
  | OutOfFuel => short
  end.

(** The entry the walker leaves under an object's name: the one that was
    there, or a fresh one with the object's type and label, with [new]
    child dictionaries behind the children it had. *)
Definition entry_with (old : option formula_entry) (type : string) (label : option string)
    (new : list (odict formula_entry)) : formula_entry :=
  match old with
  | Some (FEntry t l cs) => FEntry t l (cs ++ new)
  | None => FEntry type label new
  end.

(** A root object is in place in [formula_hierarchy]: its label is a
    key, and the dictionary under it has the root's own name as a key. *)
Definition in_place {Obj : Type} (xlinkLabel : Obj → option string)
    (localName : Obj → string) (formula_hierarchy : formula_dict) (root : Obj) : Prop :=
  ∃ h, fd_get (xlinkLabel root) formula_hierarchy = Some h
       ∧ obj_name xlinkLabel localName root ∈ od_keys h.

End FormulaSpec.

(** ** Inputs used in the examples *)

Module Examples.
Import Arelle.

(** A concept whose local name and printed name are both [n]. *)
Definition concept (n : string) : ModelObject :=
  mkObject (AttrQName (mkQName n n)) false.

(** The relationship from concept [a] to concept [b]. *)
Definition arc (a b : string) : ModelRelationship :=
  mkRel (Some (concept a)) (Some (concept b)).

Definition balance_role : string := "http://example.com/role/Balance".
Definition parent_child : string := "http://www.xbrl.org/2003/arcrole/parent-child".

Definition chain_edges : list ModelRelationship := [arc "A" "B"; arc "B" "C"].
Definition two_cycle_edges : list ModelRelationship := [arc "A" "B"; arc "B" "A"].
Definition ring_edges : list ModelRelationship := [arc "A" "B"; arc "B" "C"; arc "C" "A"].
Definition diamond_edges : list ModelRelationship :=
  [arc "A" "B"; arc "A" "C"; arc "B" "D"; arc "C" "D"].

(** The adjacency of the diamond as [build_hierarchy] would descend it
    if parents and children went by the same names. *)
Definition diamond_map : odict DimensionParser.entry :=
  [ ("A", DimensionParser.mkEntry false ["B"; "C"] None);
    ("B", DimensionParser.mkEntry false ["D"] (Some "A"));
    ("C", DimensionParser.mkEntry false ["D"] (Some "A"));
    ("D", DimensionParser.mkEntry false [] (Some "C")) ].

(** The adjacencies of the chain and of the ring, likewise. *)
Definition chain_map : odict DimensionParser.entry :=
  [ ("A", DimensionParser.mkEntry false ["B"] None);
    ("B", DimensionParser.mkEntry false ["C"] (Some "A"));
    ("C", DimensionParser.mkEntry false [] (Some "B")) ].

Definition ring_map : odict DimensionParser.entry :=
  [ ("A", DimensionParser.mkEntry false ["B"] (Some "C"));
    ("B", DimensionParser.mkEntry false ["C"] (Some "A"));
    ("C", DimensionParser.mkEntry false ["A"] (Some "B")) ].

(** Two scopes that both put the child X under the parent P. *)
Definition two_scopes (arcrole : string) : option (list ModelRelationship) :=
  if decide (arcrole = "http://xbrl.org/int/dim/arcrole/hypercube-dimension")
  then Some [arc "P" "X"]
  else if decide (arcrole = "http://xbrl.org/int/dim/arcrole/dimension-domain")
  then Some [arc "P" "X"; arc "P" "Y"]
  else None.

(** The same two scopes as [parse_dimensions] meets them, both in the
    Balance link role. *)
Definition two_scopes_model : DimensionParser.ModelXbrl :=
  DimensionParser.mkModelXbrl
    two_scopes
    (λ arcrole, match two_scopes arcrole with Some _ => [balance_role] | None => [] end)
    (λ arcrole elr, if decide (elr = balance_role) then two_scopes arcrole else None).

(** Two scopes with the parent P and nothing else in common: X under P
    for the first arc-role, Y under P for the second. *)
Definition disjoint_scopes (arcrole : string) : option (list ModelRelationship) :=
  if decide (arcrole = "http://xbrl.org/int/dim/arcrole/hypercube-dimension")
  then Some [arc "P" "X"]
  else if decide (arcrole = "http://xbrl.org/int/dim/arcrole/dimension-domain")
  then Some [arc "P" "Y"]
  else None.

Definition disjoint_scopes_model : DimensionParser.ModelXbrl :=
  DimensionParser.mkModelXbrl
    disjoint_scopes
    (λ arcrole, match disjoint_scopes arcrole with Some _ => [balance_role] | None => [] end)
    (λ arcrole elr, if decide (elr = balance_role) then disjoint_scopes arcrole else None).

(** A linear chain of 150 formula objects, numbered from 0: object [n]
    has one outgoing relationship, to object [n + 1], and the last one
    has none. *)
Definition chain_label (n : nat) : option string := Some ("obj" +:+ pretty n).
Definition chain_local (n : nat) : string := "filter".
Definition chain_targets (n : nat) : list (option nat) :=
  if decide (n < 149) then [Some (S n)] else [].

(** [levels] nested one-entry dictionaries for the objects from [first]
    on, with an empty dictionary in the innermost children list. *)
Fixpoint nested_chain (levels first : nat) : odict TaxonomyParser.formula_entry :=
  match levels with
  | 0 => []
  | S levels' =>
      [ ("obj" +:+ pretty first,
         TaxonomyParser.FEntry "filter" (Some ("obj" +:+ pretty first))
                               [nested_chain levels' (S first)]) ]
  end.

(** An object whose [qname] attribute exists and holds [None]. *)
Definition unnamed : ModelObject := mkObject AttrNone false.
(** An object without a [qname] attribute. *)
Definition plain : ModelObject := mkObject NoAttr false.
End Examples.

(** ** Order of first appearance *)

(** What an insertion-ordered dictionary does to the sequence of keys it
    is given: a key that is new goes last, a key seen before stays where
    it is. *)
Definition add_new {A : Type} `{EqDecision A} (x : A) (seen : list A) : list A :=
  if decide (x ∈ seen) then seen else seen ++ [x].

Definition first_seen {A : Type} `{EqDecision A} (l : list A) : list A :=
  fold_left (λ seen x, add_new x seen) l [].

(** The child names of the edges whose parent is [p], in input order. *)
Definition children_named (p : string) (edges : list (string * string)) : list string :=
  (filter (λ e : string * string, e.1 = p) edges).*2.

(** Both ends of every edge, parent first, in input order. *)
Definition edge_ends (edges : list (string * string)) : list string :=
  edges ≫= λ e, [e.1; e.2].

(** The parent names of the edges whose child is [c], in input order. *)
Definition parents_named (c : string) (edges : list (string * string)) : list string :=
  (filter (λ e : string * string, e.2 = c) edges).*1.

(** ** Further vocabulary for [dimension_parser.process_relationships] *)

Module DimensionEnds.
Import Arelle DimensionParser.

(** The two ends of a relationship that gets its names, parent first,
    each under the name lines 28 to 30 give it and with its
    [isAbstract]. *)
Definition named_ends (elr : string) (rel : ModelRelationship) : list (string * bool) :=
  match fromModelObject rel, toModelObject rel with
  | Some parent, Some child =>
      match qname parent, qname child with
      | AttrQName qp, AttrQName qc =>
          [ (role_prefix elr +:+ localName qp, isAbstract parent);
            (localName qc, isAbstract child) ]
      | _, _ => []
      end
  | _, _ => []
  end.

(** The flag of the first end that bears the name [k]; [false] when
    none does. *)
Definition first_flag (k : string) (ends : list (string * bool)) : bool :=
  match filter (λ e : string * bool, e.1 = k) ends with
  | e :: _ => e.2
  | [] => false
  end.

(** The pairs of arc-role and link role for which [parse_dimensions]
    calls [process_relationships], in the order of the calls. *)
Definition visited_scopes (model_xbrl : ModelXbrl) : list (string * string) :=
  dim_arcroles ≫= λ arcrole,
    match relationshipSet model_xbrl arcrole with
    | Some (_ :: _) => (λ elr, (arcrole, elr)) <$> linkRoleUris model_xbrl arcrole
    | _ => []
    end.

(** The relationships [process_relationships] is given for a scope. *)
Definition scope_relationships (model_xbrl : ModelXbrl) (scope : string * string)
    : list ModelRelationship :=
  default [] (relationshipSet_in model_xbrl scope.1 scope.2).

(** The call [parse_dimensions] makes for a scope, under the recursion
    limit. *)
Definition scope_outcome (spare : nat) (model_xbrl : ModelXbrl) (scope : string * string)
    : outcome (odict Node) :=
  process_relationships_within spare scope.1
    (relationshipSet_in model_xbrl scope.1 scope.2) scope.2.

(** An outcome that is a value or [RecursionError]. *)
Definition returns_or_overflows {A : Type} (o : outcome A) : Prop :=
  match o with
  | Returns _ => True
  | Raises e => e = RecursionError
  | OutOfFuel => False
  end.

(** What the first loop of [build_forest] leaves when every root got
    its tree within [frames] frames. *)
Definition trees_within (frames : nat) (hierarchy : odict (option Node)) : Prop :=
  ∀ k st, (k, st) ∈ hierarchy → ∃ t, st = Some t ∧ height t ≤ frames.

End DimensionEnds.

(** ** Further vocabulary for [taxonomy_parser.process_relationships] *)

Module TaxonomyEdges.
Import Arelle TaxonomyParser.

(** The names under which a record that passes both checks is entered:
    [str(parent.qname)] and [str(child.qname)]. *)
Definition kept_edge (rel : ModelRelationship) : option (string * string) :=
  match fromModelObject rel, toModelObject rel with
  | Some parent, Some child =>
      if negb (getattr_qname_truthy parent) || negb (getattr_qname_truthy child)
      then None
      else Some (str_qname parent, str_qname child)
  | _, _ => None
  end.

Definition kept_edges (rels : list ModelRelationship) : list (string * string) :=
  omap kept_edge rels.

(** What one dimensional arc-role gives [parse_taxonomy] to merge: the
    hierarchy of its relationship set, or nothing without such a set. *)
Definition scope_hierarchy (relationshipSet : string → option (list ModelRelationship))
    (arcrole : string) : odict details :=
  match relationshipSet arcrole with
  | Some rels => process_relationships arcrole (Some rels)
  | None => []
  end.

End TaxonomyEdges.

(** * Properties *)

(** ** Loops and outcomes *)

Lemma bind_Returns {A B : Type} (a : A) (f : A → outcome B) : Returns a ≫= f = f a.
Proof. reflexivity. Qed.

Lemma for_each_nil {A S : Type} (body : S → A → outcome S) s :
  for_each body [] s = Returns s.
Proof. reflexivity. Qed.

Lemma for_each_cons {A S : Type} (body : S → A → outcome S) x xs s :
  for_each body (x :: xs) s = body s x ≫= for_each body xs.
Proof. reflexivity. Qed.

(** ** Ordered dictionaries *)

Section odict_facts.
Context {V : Type}.
Implicit Types (d : odict V) (k : string) (v : V).

Lemma od_mem_spec k d : od_mem k d = true ↔ k ∈ d.*1.
Proof. unfold od_mem. apply bool_decide_eq_true. Qed.

Lemma od_mem_false k d : od_mem k d = false ↔ k ∉ d.*1.
Proof. unfold od_mem. apply bool_decide_eq_false. Qed.

Lemma od_get_elem k v d : od_get k d = Some v → (k, v) ∈ d.
Proof.
  induction d as [|[k' v'] d IH]; simpl; [done|].
  case_decide as Hk.
  - intros [= ->]. subst k'. left.
  - intros Hg. right. auto.
Qed.

Lemma od_get_None k d : od_get k d = None ↔ k ∉ d.*1.
Proof.
  induction d as [|[k' v'] d IH]; simpl.
  - split; [intros _; apply not_elem_of_nil | done].
  - case_decide as Hk.
    + subst k'. split; [done|]. intros Hn. exfalso. apply Hn. left.
    + rewrite IH. rewrite not_elem_of_cons. naive_solver.
Qed.

Lemma od_get_is_Some k d : is_Some (od_get k d) ↔ k ∈ d.*1.
Proof.
  rewrite <- not_eq_None_Some, od_get_None.
  split; [apply dec_stable | auto].
Qed.

Lemma od_set_fresh k v d : k ∉ d.*1 → od_set k v d = d ++ [(k, v)].
Proof.
  induction d as [|[k' v'] d IH]; simpl; [done|].
  rewrite not_elem_of_cons. intros [Hk Hd].
  case_decide; [done|]. by rewrite IH.
Qed.

Lemma elem_of_od_set kv k v d : kv ∈ od_set k v d → kv ∈ d ∨ kv = (k, v).
Proof.
  induction d as [|[k' v'] d IH]; simpl.
  - rewrite list_elem_of_singleton. auto.
  - case_decide; rewrite !elem_of_cons; naive_solver.
Qed.

Lemma elem_of_od_alter kv f k d :
  kv ∈ od_alter f k d → kv ∈ d ∨ ∃ v, (k, v) ∈ d ∧ kv = (k, f v).
Proof.
  induction d as [|[k' v'] d IH]; simpl; [auto|].
  case_decide as Hk; rewrite !elem_of_cons.
  - subst k'. intros [->|?]; [|auto]. right. exists v'. split; [left|done].
  - intros [->|Hin]; [auto|].
    destruct (IH Hin) as [?|(v & ? & ?)]; [auto|].
    right. exists v. split; [by right|done].
Qed.

Lemma elem_of_od_vivify kv dflt k d :
  kv ∈ od_vivify dflt k d → kv ∈ d ∨ kv = (k, dflt).
Proof.
  unfold od_vivify. destruct (od_mem k d); [auto|].
  rewrite elem_of_app, list_elem_of_singleton. auto.
Qed.

Lemma od_alter_keys f k d : (od_alter f k d).*1 = d.*1.
Proof.
  induction d as [|[k' v'] d IH]; simpl; [done|].
  case_decide; csimpl; [done|]. by f_equal.
Qed.
Lemma od_get_alter f k d : od_get k (od_alter f k d) = f <$> od_get k d.
Proof.
  induction d as [|[k' v'] d IH]; simpl; [done|].
  case_decide as Hk; simpl.
  - subst k'. by rewrite decide_True.
  - by rewrite decide_False.
Qed.

Lemma od_get_alter_ne f k k' d : k ≠ k' → od_get k (od_alter f k' d) = od_get k d.
Proof.
  intros Hne. induction d as [|[k0 v0] d IH]; simpl; [done|].
  destruct (decide (k' = k0)) as [->|Hk0]; simpl.
  - by rewrite !decide_False.
  - by rewrite IH.
Qed.

Lemma od_get_app k d1 d2 :
  od_get k (d1 ++ d2) = match od_get k d1 with Some v => Some v | None => od_get k d2 end.
Proof.
  induction d1 as [|[k0 v0] d1 IH]; simpl; [done|]. by case_decide.
Qed.

Lemma od_get_set k k' v d :
  od_get k (od_set k' v d) = if decide (k = k') then Some v else od_get k d.
Proof.
  induction d as [|[k0 v0] d IH]; simpl; [done|].
  destruct (decide (k' = k0)) as [->|Hk0]; simpl.
  - by destruct (decide (k = k0)).
  - rewrite IH. destruct (decide (k = k0)) as [->|?]; [|done].
    by rewrite decide_False.
Qed.

Lemma od_get_vivify dflt k k' d :
  od_get k (od_vivify dflt k' d)
  = match od_get k d with
    | Some v => Some v
    | None => if decide (k = k') then Some dflt else None
    end.
Proof.
  unfold od_vivify. destruct (od_mem k' d) eqn:Hmem.
  - destruct (od_get k d) eqn:Hget; [done|].
    case_decide as Hk; [|done]. subst k'.
    apply od_mem_spec in Hmem. by apply od_get_None in Hget.
  - rewrite od_get_app. simpl. by destruct (od_get k d).
Qed.

Lemma od_vivify_mem dflt k d : k ∈ (od_vivify dflt k d).*1.
Proof.
  unfold od_vivify. destruct (od_mem k d) eqn:Hmem.
  - by apply od_mem_spec.
  - rewrite fmap_app, elem_of_app. right. left.
Qed.
End odict_facts.

(** ** The recursive builder of [dimension_parser.py] *)

Module DimensionFacts.
Import Arelle DimensionParser DimensionSpec.

Lemma subtree_names_eq n : subtree_names n = name n :: (children n ≫= subtree_names).
Proof. by destruct n. Qed.

Lemma subnodes_eq n : subnodes n = n :: (children n ≫= subnodes).
Proof. by destruct n. Qed.

Lemma height_eq n : height n = S (max_list (height <$> children n)).
Proof. by destruct n. Qed.

Lemma Forall2_elem_of_r {A B} (R : A → B → Prop) l k y :
  Forall2 R l k → y ∈ k → ∃ x, x ∈ l ∧ R x y.
Proof.
  induction 1 as [|x y' l k HR _ IH]; [by intros ?%elem_of_nil|].
  rewrite elem_of_cons. intros [->|Hy].
  - exists x. split; [left|done].
  - destruct (IH Hy) as (x' & ? & ?). exists x'. split; [by right|done].
Qed.

Section build_facts.
Variable pcm : odict entry.

Lemma od_mem_all_parents c : od_mem c pcm = true ↔ c ∈ all_parents pcm.
Proof.
  rewrite od_mem_spec. unfold all_parents, od_keys.
  by rewrite elem_of_list_to_set.
Qed.

Lemma root_nodes_subseteq : root_nodes pcm ⊆ all_parents pcm.
Proof. unfold root_nodes. simpl. case_decide; set_solver. Qed.

(** A name on the current path is refused, whatever the fuel. *)
Lemma build_hierarchy_visited fuel node visited :
  node ∈ visited → build_hierarchy pcm fuel node visited = Returns (None, visited).
Proof. intros Hin. destruct fuel; simpl; by rewrite decide_True. Qed.

(** The children loop, for a [recurse] that meets its contract on the
    keys of the map: it leaves [visited] as it found it, skips the
    names on the path and builds a [Q]-tree for every other key. *)
Lemma build_children_rule recurse (V : gset string) (Q : string → Node → Prop) :
  (∀ cn, cn ∈ all_parents pcm → cn ∈ V → recurse cn V = Returns (None, V)) →
  (∀ cn, cn ∈ all_parents pcm → cn ∉ V →
     ∃ c, recurse cn V = Returns (Some c, V) ∧ Q cn c) →
  ∀ names built,
    ∃ cs, build_children pcm recurse names built V = Returns (built ++ cs, V)
          ∧ Forall2 Q (filter (λ cn, cn ∈ all_parents pcm ∧ cn ∉ V) names) cs.
Proof.
  intros Hskip Hbuild names.
  induction names as [|cn names IH]; intros built; simpl.
  - exists []. by rewrite app_nil_r.
  - destruct (od_mem cn pcm) eqn:Hmem.
    + apply od_mem_all_parents in Hmem.
      destruct (decide (cn ∈ V)) as [HV|HV].
      * rewrite (Hskip _ Hmem HV). simpl.
        destruct (IH built) as (cs & -> & HQ). exists cs. split; [done|].
        rewrite filter_cons_False; [done|tauto].
      * destruct (Hbuild _ Hmem HV) as (c & -> & Hc). simpl.
        destruct (IH (built ++ [c])) as (cs & -> & HQ). exists (c :: cs).
        split; [by rewrite <- app_assoc|].
        rewrite filter_cons_True; [|done]. by constructor.
    + destruct (IH built) as (cs & -> & HQ). exists cs. split; [done|].
      rewrite filter_cons_False; [done|].
      intros [Hin _]. apply od_mem_all_parents in Hin. congruence.
Qed.

Lemma path_shorter_than_map node (visited : gset string) :
  node ∈ all_parents pcm → node ∉ visited → visited ⊆ all_parents pcm →
  size visited < size (all_parents pcm).
Proof. intros Hin Hnot Hsub. apply subset_size. set_solver. Qed.

(** The builder, for a property [P] that a node inherits from its
    built children: with fuel beyond the number of keys not yet on
    the path, a key off the path yields a [P]-tree and [visited]
    comes back unchanged. *)
Lemma build_hierarchy_rule (P : gset string → string → Node → Prop) :
  (∀ visited node cs,
     node ∉ visited →
     Forall2 (P (visited ∪ {[node]}))
       (filter (λ cn, cn ∈ all_parents pcm ∧ cn ∉ visited ∪ {[node]})
               (entry_children (get_node_data pcm node))) cs →
     P visited node (mkNode node (entry_abstract (get_node_data pcm node)) cs)) →
  ∀ fuel node visited,
    node ∈ all_parents pcm → node ∉ visited → visited ⊆ all_parents pcm →
    size (all_parents pcm) < fuel + size visited →
    ∃ t, build_hierarchy pcm fuel node visited = Returns (Some t, visited)
         ∧ P visited node t.
Proof.
  intros HP fuel.
  induction fuel as [|fuel IH]; intros node visited Hin Hnot Hsub Hfuel.
  - pose proof (path_shorter_than_map _ _ Hin Hnot Hsub). lia.
  - simpl. rewrite decide_False by done.
    destruct (build_children_rule (build_hierarchy pcm fuel)
                (visited ∪ {[node]}) (P (visited ∪ {[node]})))
      with (names := entry_children (get_node_data pcm node)) (built := @nil Node)
      as (cs & -> & Hcs).
    + intros cn _ HV. by apply build_hierarchy_visited.
    + intros cn Hcn HV. apply IH; [done|done|set_solver|].
      rewrite size_union by set_solver. rewrite size_singleton. lia.
    + simpl. eexists. split.
      * do 2 f_equal. set_solver.
      * by apply HP.
Qed.

(** [built_from] is inherited from the built children. *)
Lemma built_from_node visited node cs :
  node ∉ visited →
  Forall2 (built_from pcm (visited ∪ {[node]}))
    (filter (λ cn, cn ∈ all_parents pcm ∧ cn ∉ visited ∪ {[node]})
            (entry_children (get_node_data pcm node))) cs →
  built_from pcm visited node
    (mkNode node (entry_abstract (get_node_data pcm node)) cs).
Proof.
  intros Hnode Hcs.
  assert (Hchild : ∀ c, c ∈ cs →
            ∃ cn, cn ∈ entry_children (get_node_data pcm node)
                  ∧ built_from pcm (visited ∪ {[node]}) cn c).
  { intros c Hc. destruct (Forall2_elem_of_r _ _ _ _ Hcs Hc) as (cn & Hcn & Hb).
    apply list_elem_of_filter in Hcn as [_ Hcn]. eauto. }
  split.
  - done.
  - intros x. rewrite subtree_names_eq. simpl. rewrite elem_of_cons.
    intros [->|Hx]; [done|].
    apply list_elem_of_bind in Hx as (c & Hx & Hc).
    destruct (Hchild c Hc) as (cn & _ & Hb).
    pose proof (built_off_path _ _ _ _ Hb x Hx). set_solver.
  - intros n. rewrite subnodes_eq. simpl. rewrite elem_of_cons.
    intros [->|Hn].
    + unfold descendant_names. simpl. intros Hx.
      apply list_elem_of_bind in Hx as (c & Hx & Hc).
      destruct (Hchild c Hc) as (cn & _ & Hb).
      pose proof (built_off_path _ _ _ _ Hb node Hx). set_solver.
    + apply list_elem_of_bind in Hn as (c & Hn & Hc).
      destruct (Hchild c Hc) as (cn & _ & Hb).
      by apply (built_acyclic _ _ _ _ Hb).
  - intros n. rewrite subnodes_eq. simpl. rewrite elem_of_cons.
    intros [->|Hn]; [done|].
    apply list_elem_of_bind in Hn as (c & Hn & Hc).
    destruct (Hchild c Hc) as (cn & _ & Hb).
    by apply (built_abstract _ _ _ _ Hb).
  - intros n c'. rewrite subnodes_eq. simpl. rewrite elem_of_cons.
    intros [->|Hn] Hc'.
    + simpl in Hc'. destruct (Hchild c' Hc') as (cn & Hcn & Hb).
      by rewrite (built_name _ _ _ _ Hb).
    + apply list_elem_of_bind in Hn as (c & Hn & Hc).
      destruct (Hchild c Hc) as (cn & _ & Hb).
      by apply (built_children _ _ _ _ Hb).
Qed.

Lemma build_root_eq hierarchy root structure visited :
  build_hierarchy pcm (enough_fuel pcm) root ∅ = Returns (structure, visited) →
  build_root pcm hierarchy root = Returns (od_set root structure hierarchy).
Proof. unfold build_root. by intros ->. Qed.

Lemma walk_root_eq walked root node :
  walk_root walked (root, Some node) = Returns (walked ++ [(root, node)]).
Proof. reflexivity. Qed.

(** The forest: every root of the resolver gets a [P]-tree, stored
    under its own name. *)
Lemma build_forest_rule (P : gset string → string → Node → Prop) :
  (∀ visited node cs,
     node ∉ visited →
     Forall2 (P (visited ∪ {[node]}))
       (filter (λ cn, cn ∈ all_parents pcm ∧ cn ∉ visited ∪ {[node]})
               (entry_children (get_node_data pcm node))) cs →
     P visited node (mkNode node (entry_abstract (get_node_data pcm node)) cs)) →
  ∃ h, build_forest pcm = Returns h
       ∧ Forall2 (λ root kv, kv.1 = root ∧ P ∅ root kv.2)
                 (elements (root_nodes pcm)) h.
Proof.
  intros HP. unfold build_forest.
  set (R := λ (root : string) (kv : string * option Node),
         kv.1 = root ∧ ∃ t, kv.2 = Some t ∧ P ∅ root t).
  assert (Hloop1 : ∀ roots h0,
             NoDup roots → (∀ r, r ∈ roots → r ∈ all_parents pcm ∧ r ∉ h0.*1) →
             ∃ built, for_each (build_root pcm) roots h0 = Returns (h0 ++ built)
                      ∧ Forall2 R roots built).
  { induction roots as [|root roots IH]; intros h0 Hnd Hroots.
    - exists []. by rewrite app_nil_r.
    - apply NoDup_cons in Hnd as [Hfresh Hnd].
      destruct (Hroots root) as [Hin Hnew]; [left|].
      destruct (build_hierarchy_rule P HP (enough_fuel pcm) root ∅)
        as (t & Ht & HPt); [done|set_solver|set_solver| |].
      { unfold enough_fuel. lia. }
      rewrite for_each_cons, (build_root_eq _ _ _ _ Ht).
      rewrite bind_Returns, od_set_fresh by done.
      destruct (IH (h0 ++ [(root, Some t)])) as (built & -> & HR); [done| |].
      { intros r Hr. destruct (Hroots r) as [? ?]; [by right|].
        split; [done|]. rewrite fmap_app, elem_of_app. simpl.
        rewrite list_elem_of_singleton. intros [?| ->]; done. }
      exists ((root, Some t) :: built). split; [by rewrite <- app_assoc|].
      constructor; [|done]. split; [done|]. by exists t. }
  assert (Hloop2 : ∀ roots built,
             Forall2 R roots built →
             ∀ walked, ∃ out, for_each walk_root built walked = Returns (walked ++ out)
               ∧ Forall2 (λ root kv, kv.1 = root ∧ P ∅ root kv.2) roots out).
  { induction 1 as [|root [k s] roots built HR _ IH]; intros walked.
    - exists []. by rewrite app_nil_r.
    - destruct HR as [Hk (t & Hs & HPt)]. simpl in Hk, Hs. subst k s. rewrite for_each_cons, walk_root_eq, bind_Returns.
      destruct (IH (walked ++ [(root, t)])) as (out & -> & Hout).
      exists ((root, t) :: out). split; [by rewrite <- app_assoc|].
      by constructor. }
  destruct (Hloop1 (elements (root_nodes pcm)) []) as (built & Hb & HR).
  { apply NoDup_elements. }
  { intros r Hr. split; [|apply not_elem_of_nil].
    apply root_nodes_subseteq. by apply elem_of_elements. }
  rewrite Hb, bind_Returns.
  destruct (Hloop2 _ _ HR []) as (out & Hout & HF).
  exists out. by split.
Qed.
(** The second half of [process_relationships] always returns: one
    tree per resolved root, stored under the root's name. *)
Lemma build_forest_spec :
  ∃ h, build_forest pcm = Returns h
       ∧ h.*1 = elements (root_nodes pcm)
       ∧ ∀ root t, (root, t) ∈ h → built_from pcm ∅ root t.
Proof.
  destruct (build_forest_rule (built_from pcm) built_from_node) as (h & Hh & HF).
  exists h. split; [done|]. split.
  - clear Hh. induction HF as [|root [k t] roots h [Hk _] _ IH]; [done|].
    simpl in Hk. subst k. rewrite fmap_cons. by f_equal.
  - intros root t Hin.
    assert (∀ kv, kv ∈ h → built_from pcm ∅ kv.1 kv.2) as Hall; [|apply (Hall _ Hin)].
    clear Hh Hin. intros kv Hkv.
    destruct (Forall2_elem_of_r _ _ _ _ HF Hkv) as (r & _ & Hr & HP).
    by rewrite Hr.
Qed.
End build_facts.

(** *** The map built by the loop over the relationships *)

Section map_facts.
Variable edges : list (string * string).

Lemma children_sound_vivify k m :
  children_sound edges m → children_sound edges (od_vivify default_entry k m).
Proof.
  intros Hm k' e c [Hin|[= -> ->]]%elem_of_od_vivify; [by apply Hm|].
  by intros ?%elem_of_nil.
Qed.

Lemma children_sound_alter f k m :
  (∀ e c, c ∈ entry_children (f e) → c ∈ entry_children e) →
  children_sound edges m → children_sound edges (od_alter f k m).
Proof.
  intros Hf Hm k' e c [Hin|(e0 & Hin & [= -> ->])]%elem_of_od_alter Hc.
  - by apply (Hm _ _ _ Hin).
  - apply (Hm _ _ _ Hin). by apply Hf.
Qed.

Lemma children_sound_add_child k c m :
  (k, c) ∈ edges →
  children_sound edges m → children_sound edges (od_alter (add_child c) k m).
Proof.
  intros Hkc Hm k' e c' [Hin|(e0 & Hin & [= -> ->])]%elem_of_od_alter Hc.
  - by apply (Hm _ _ _ Hin).
  - unfold add_child in Hc. simpl in Hc. case_bool_decide.
    + by apply (Hm _ _ _ Hin).
    + apply elem_of_app in Hc as [Hc| ->%list_elem_of_singleton]; [|done].
      by apply (Hm _ _ _ Hin).
Qed.

Lemma children_sound_set k e m :
  entry_children e = [] →
  children_sound edges m → children_sound edges (od_set k e m).
Proof.
  intros He Hm k' e' c [Hin|[= -> ->]]%elem_of_od_set; [by apply Hm|].
  rewrite He. by intros ?%elem_of_nil.
Qed.

Lemma keys_sound_vivify k m :
  k ∈ edges.*1 ∨ k ∈ edges.*2 →
  keys_sound edges m → keys_sound edges (od_vivify default_entry k m).
Proof.
  intros Hk Hm k' ([k0 e] & -> & Hin)%list_elem_of_fmap.
  apply elem_of_od_vivify in Hin as [Hin|[= -> ->]]; [|done].
  apply Hm, list_elem_of_fmap. by exists (k0, e).
Qed.

Lemma keys_sound_alter f k m :
  keys_sound edges m → keys_sound edges (od_alter f k m).
Proof. intros Hm k'. rewrite od_alter_keys. apply Hm. Qed.

Lemma keys_sound_set k e m :
  k ∈ edges.*1 ∨ k ∈ edges.*2 →
  keys_sound edges m → keys_sound edges (od_set k e m).
Proof.
  intros Hk Hm k' ([k0 e0] & -> & Hin)%list_elem_of_fmap.
  apply elem_of_od_set in Hin as [Hin|[= -> ->]]; [|done].
  apply Hm, list_elem_of_fmap. by exists (k0, e0).
Qed.

Lemma record_edge_sound elr m rel m' :
  record_edge elr m rel = Returns m' →
  (∀ kc, named_edge elr rel = Some kc → kc ∈ edges) →
  children_sound edges m ∧ keys_sound edges m →
  children_sound edges m' ∧ keys_sound edges m'.
Proof.
  unfold record_edge, named_edge, hasattr_qname, qname_localName.
  destruct (fromModelObject rel) as [parent|], (toModelObject rel) as [child|];
    try (by intros [= <-]).
  destruct (qname parent) as [| |qp], (qname child) as [| |qc]; simpl;
    try (by intros [= <-]); try done.
  set (pn := role_prefix elr +:+ localName qp). set (cn := localName qc).
  intros [= <-] Hedge [Hc Hk].
  specialize (Hedge _ eq_refl).
  assert (pn ∈ edges.*1) as Hpn.
  { apply list_elem_of_fmap. by exists (pn, cn). }
  assert (cn ∈ edges.*2) as Hcn.
  { apply list_elem_of_fmap. by exists (pn, cn). }
  set (m1 := if od_mem pn m then m else _).
  assert (children_sound edges m1 ∧ keys_sound edges m1) as [Hc1 Hk1].
  { subst m1. destruct (od_mem pn m); [done|]. split.
    - apply children_sound_alter; [done|]. by apply children_sound_vivify.
    - apply keys_sound_alter, keys_sound_vivify; auto. }
  set (m2 := if od_mem cn m1 then m1 else _).
  assert (children_sound edges m2 ∧ keys_sound edges m2) as [Hc2 Hk2].
  { subst m2. destruct (od_mem cn m1); [done|]. split.
    - by apply children_sound_set.
    - apply keys_sound_set; auto. }
  split.
  - apply children_sound_add_child; [done|]. apply children_sound_vivify.
    apply children_sound_alter; [done|]. by apply children_sound_vivify.
  - apply keys_sound_alter, keys_sound_vivify; [auto|].
    apply keys_sound_alter, keys_sound_vivify; auto.
Qed.
End map_facts.

Lemma elem_of_named_edges elr rels k c :
  (k, c) ∈ named_edges elr rels ↔ names_an_edge elr rels k c.
Proof.
  unfold named_edges, names_an_edge. fold (role_prefix elr). rewrite list_elem_of_omap. split.
  - intros (rel & Hrel & Hne). unfold named_edge in Hne.
    destruct (fromModelObject rel) as [parent|] eqn:Hp; [|done].
    destruct (toModelObject rel) as [child|] eqn:Hc; [|done].
    destruct (qname parent) as [| |qp] eqn:Hqp; try done.
    destruct (qname child) as [| |qc] eqn:Hqc; try done.
    injection Hne as <- <-. by exists rel, parent, child, qp, qc.
  - intros (rel & parent & child & qp & qc & Hrel & Hp & Hc & Hqp & Hqc & -> & ->).
    exists rel. split; [done|]. unfold named_edge. by rewrite Hp, Hc, Hqp, Hqc.
Qed.

(** Every child in the map was put there by a relationship of the
    input, under the names of lines 28 to 30, and every key is such a
    name. *)
Lemma build_map_sound relationship_set elr pcm :
  build_map relationship_set elr = Returns pcm →
  children_sound (named_edges elr (default [] relationship_set)) pcm
  ∧ keys_sound (named_edges elr (default [] relationship_set)) pcm.
Proof.
  unfold build_map.
  set (rels := default [] relationship_set).
  assert (∀ done_ todo m m',
            rels = done_ ++ todo →
            for_each (record_edge elr) todo m = Returns m' →
            children_sound (named_edges elr rels) m ∧ keys_sound (named_edges elr rels) m →
            children_sound (named_edges elr rels) m' ∧ keys_sound (named_edges elr rels) m')
    as Hloop.
  { intros done_ todo. revert done_.
    induction todo as [|rel todo IH]; intros done_ m m' Hrels.
    - rewrite for_each_nil. by intros [= <-].
    - rewrite for_each_cons.
      destruct (record_edge elr m rel) as [m1| |] eqn:Hstep; try done.
      rewrite bind_Returns. intros Hrest Hm.
      apply (IH (done_ ++ [rel]) m1 m'); [by rewrite <- app_assoc|done|].
      apply (record_edge_sound _ _ _ _ _ Hstep); [|done].
      intros kc Hkc. unfold named_edges. apply list_elem_of_omap.
      exists rel. split; [|done]. rewrite Hrels. set_solver. }
  intros Hrun. apply (Hloop [] rels [] pcm); [done|done|].
  split.
  - by intros k e c ?%elem_of_nil.
  - by intros k ?%elem_of_nil.
Qed.

(** *** Nothing that is kept is lost *)

Lemma node_children_vivify k k' m :
  entry_children (get_node_data (od_vivify default_entry k' m) k)
  = entry_children (get_node_data m k).
Proof.
  unfold get_node_data. rewrite od_get_vivify.
  destruct (od_get k m); [done|]. by case_decide.
Qed.

Lemma node_children_alter f k k' m :
  (∀ e, entry_children (f e) = entry_children e) →
  entry_children (get_node_data (od_alter f k' m) k)
  = entry_children (get_node_data m k).
Proof.
  intros Hf. unfold get_node_data.
  destruct (decide (k = k')) as [->|Hne].
  - rewrite od_get_alter. destruct (od_get k' m); simpl; [apply Hf|done].
  - by rewrite od_get_alter_ne.
Qed.

Lemma node_children_set_fresh k k' e m :
  od_mem k' m = false → entry_children e = [] →
  entry_children (get_node_data (od_set k' e m) k)
  = entry_children (get_node_data m k).
Proof.
  intros Hmem He. unfold get_node_data. rewrite od_get_set.
  case_decide as Hk; [|done]. subst k'. simpl.
  apply od_mem_false, od_get_None in Hmem. by rewrite Hmem, He.
Qed.





(** Skip and continue: a dropped record leaves the map as it is. *)
Lemma record_edge_dropped elr m rel :
  dropped rel = true → record_edge elr m rel = Returns m.
Proof.
  unfold dropped, record_edge.
  destruct (fromModelObject rel), (toModelObject rel); try done.
  by intros ->%negb_true_iff.
Qed.

(** A record that passes the validation with a [qname] that is [None]
    ends the loop with an exception. *)
Lemma record_edge_null_qname elr m rel :
  null_qname rel = true → record_edge elr m rel = Raises AttributeError.
Proof.
  unfold null_qname, record_edge, hasattr_qname, qname_is_none, qname_localName.
  destruct (fromModelObject rel) as [parent|], (toModelObject rel) as [child|]; try done.
  by destruct (qname parent), (qname child).
Qed.

Lemma record_edge_returns elr m rel :
  null_qname rel = false → ∃ m', record_edge elr m rel = Returns m'.
Proof.
  unfold null_qname, record_edge, hasattr_qname, qname_is_none, qname_localName.
  destruct (fromModelObject rel) as [parent|], (toModelObject rel) as [child|];
    try by eexists.
  destruct (qname parent), (qname child); simpl; try done; by eexists.
Qed.

(** The map is the one built from the records that are not dropped. *)
Lemma build_map_drops rels elr :
  build_map (Some rels) elr
  = build_map (Some (filter (λ rel, dropped rel = false) rels)) elr.
Proof.
  unfold build_map. simpl. generalize (@nil (string * entry)).
  induction rels as [|rel rels IH]; intros m; [done|].
  destruct (dropped rel) eqn:Hd.
  - rewrite filter_cons_False by (by rewrite Hd).
    by rewrite for_each_cons, (record_edge_dropped _ _ _ Hd), bind_Returns.
  - rewrite filter_cons_True by done. rewrite !for_each_cons.
    destruct (record_edge elr m rel); simpl; [apply IH|done|done].
Qed.

(** The loop returns exactly when no record has a [qname] that is
    [None] behind the validation; otherwise it raises. *)
Lemma build_map_returns rels elr :
  Forall (λ rel, null_qname rel = false) rels →
  ∃ pcm, build_map (Some rels) elr = Returns pcm.
Proof.
  unfold build_map. simpl. generalize (@nil (string * entry)).
  induction rels as [|rel rels IH]; intros m Hall; [by eexists|].
  apply Forall_cons in Hall as [Hrel Hall].
  destruct (record_edge_returns elr m rel Hrel) as (m' & Hm').
  rewrite for_each_cons, Hm', bind_Returns. by apply IH.
Qed.

Lemma build_map_raises rels elr :
  Exists (λ rel, null_qname rel = true) rels →
  build_map (Some rels) elr = Raises AttributeError.
Proof.
  unfold build_map. simpl. generalize (@nil (string * entry)).
  induction rels as [|rel rels IH]; intros m Hex; [by apply Exists_nil in Hex|].
  rewrite for_each_cons.
  destruct (null_qname rel) eqn:Hrel.
  - by rewrite (record_edge_null_qname _ _ _ Hrel).
  - destruct (record_edge_returns elr m rel Hrel) as (m' & ->).
    rewrite bind_Returns. apply IH.
    apply Exists_cons in Hex as [Hex|Hex]; [congruence|done].
Qed.

Lemma get_node_data_sound edges pcm k c :
  children_sound edges pcm → c ∈ entry_children (get_node_data pcm k) → (k, c) ∈ edges.
Proof.
  intros Hs. unfold get_node_data.
  destruct (od_get k pcm) as [e|] eqn:He; simpl.
  - apply od_get_elem in He. by apply Hs.
  - by intros ?%elem_of_nil.
Qed.

Lemma elem_of_all_children pcm x :
  x ∈ all_children pcm ↔ ∃ k e, (k, e) ∈ pcm ∧ x ∈ entry_children e.
Proof.
  unfold all_children, od_values. rewrite elem_of_list_to_set, list_elem_of_bind.
  split.
  - intros (e & Hx & ([k e'] & -> & Hin)%list_elem_of_fmap). by exists k, e'.
  - intros (k & e & Hin & Hx). exists e. split; [done|].
    apply list_elem_of_fmap. by exists (k, e).
Qed.

Lemma max_list_le_bound (b : nat) (l : list nat) : Forall (λ x, x ≤ b) l → max_list l ≤ b.
Proof. induction 1; simpl; lia. Qed.

(** *** Splitting a link role *)


Lemma split_app_sep uri tail :
  split "/" tail = [tail] →
  ∃ seg pre, split "/" (uri +:+ "/" +:+ tail) = (seg :: pre) ++ [tail].
Proof.
  intros Htail. induction uri as [|c uri (seg & pre & IH)].
  - change (split "/" ("" +:+ "/" +:+ tail))
      with (if decide ("/"%char = "/"%char) then "" :: split "/" tail
            else match split "/" tail with
                 | [] => [String "/" ""]
                 | seg :: segs => String "/" seg :: segs
                 end).
    rewrite decide_True, Htail by done. by exists "", [].
  - change (split "/" (String c uri +:+ "/" +:+ tail))
      with (if decide (c = "/"%char) then "" :: split "/" (uri +:+ "/" +:+ tail)
            else match split "/" (uri +:+ "/" +:+ tail) with
                 | [] => [String c ""]
                 | seg :: segs => String c seg :: segs
                 end).
    rewrite IH. case_decide.
    + by exists "", (seg :: pre).
    + by exists (String c seg), pre.
Qed.

Lemma last_segment_app uri tail :
  split "/" tail = [tail] → last_segment (uri +:+ "/" +:+ tail) = tail.
Proof.
  intros Htail. unfold last_segment.
  destruct (split_app_sep uri tail Htail) as (seg & pre & ->).
  apply List.last_last.
Qed.

End DimensionFacts.

(** ** Statements about [dimension_parser.process_relationships] *)

Module DimensionClaims.
Import Arelle DimensionParser DimensionSpec DimensionFacts Examples.

(** Once the loop over the relationships has returned, the whole
    function returns, and its trees are the ones of [build_forest_spec]. *)
Lemma process_relationships_spec arcrole relationship_set elr pcm :
  build_map relationship_set elr = Returns pcm →
  ∃ h, process_relationships arcrole relationship_set elr = Returns h
       ∧ h.*1 = elements (root_nodes pcm)
       ∧ ∀ root t, (root, t) ∈ h → built_from pcm ∅ root t.
Proof.
  intros Hmap. unfold process_relationships. rewrite Hmap, bind_Returns.
  apply build_forest_spec.
Qed.

(** C1. Acyclicity of the output: whatever the relationships of one
    (arc-role, link-role) scope are, cyclic or not, [process_relationships]
    returns a forest in which no node's name occurs among the names
    strictly below that node. *)
Theorem acyclic_output arcrole relationship_set elr pcm :
  build_map relationship_set elr = Returns pcm →
  ∃ h, process_relationships arcrole relationship_set elr = Returns h
       ∧ ∀ root tree n,
           (root, tree) ∈ h → n ∈ subnodes tree → name n ∉ descendant_names n.
Proof.
  intros Hmap.
  destruct (process_relationships_spec arcrole _ _ _ Hmap) as (h & Hh & _ & Hbuilt).
  exists h. split; [done|]. intros root tree n Hin Hn.
  by apply (built_acyclic _ _ _ _ (Hbuilt _ _ Hin)).
Qed.

(** The input with the cycle A→B, B→A. *)
Lemma acyclic_output_two_cycle :
  ∃ h, process_relationships parent_child (Some two_cycle_edges) balance_role = Returns h
       ∧ ∀ root tree n,
           (root, tree) ∈ h → n ∈ subnodes tree → name n ∉ descendant_names n.
Proof.
  eapply (acyclic_output parent_child (Some two_cycle_edges) balance_role).
  vm_compute. reflexivity.
Defined.

(** C2. On the edges A→B, B→C the function does not return the single
    tree A → B → C: the roots are the two prefixed parents and each tree
    stops at the bare child, because the children of B are stored under
    the prefixed name of B, which the descent from the child B never
    looks up. *)
Theorem chain_yields_two_shallow_trees :
  ∃ pcm h,
    build_map (Some chain_edges) balance_role = Returns pcm
    ∧ root_nodes pcm = {[ "[Balance] A"; "[Balance] B" ]}
    ∧ process_relationships parent_child (Some chain_edges) balance_role = Returns h
    ∧ h ≡ₚ [ ("[Balance] A", mkNode "[Balance] A" false [mkNode "B" false []]);
             ("[Balance] B", mkNode "[Balance] B" false [mkNode "C" false []]) ].
Proof.
  eexists. eexists. split; [vm_compute; reflexivity|].
  split; [by vm_compute|].
  split; [vm_compute; reflexivity|].
  reflexivity.
Qed.

(** The builder and the resolver on maps whose parents and children go
    by the same names: the chain gives the one root A and the tree
    A → B → C, and the ring, where every key is a child, gives every key
    as a root through the fallback. The loop of [process_relationships]
    never makes such a map: it keys parents and children differently. *)
Remark builder_on_consistent_keys :
  build_forest chain_map
  = Returns [("A", mkNode "A" false [mkNode "B" false [mkNode "C" false []]])]
  ∧ all_parents ring_map ∖ all_children ring_map = ∅
  ∧ root_nodes ring_map = {[ "A"; "B"; "C" ]}.
Proof.
  split; [vm_compute; reflexivity|]. split; by vm_compute.
Qed.



(** C5. The root resolver: the roots are the keys that are in no
    entry's children; when there is no such key, all keys; so the roots
    are keys, there is one as soon as the map has a key, and they are
    the roots of the returned forest. *)
Theorem root_resolver (pcm : odict entry) :
  (∀ x, x ∈ all_parents pcm ∖ all_children pcm ↔
        x ∈ od_keys pcm ∧ ∀ k e, (k, e) ∈ pcm → x ∉ entry_children e)
  ∧ (all_parents pcm ∖ all_children pcm ≠ ∅ →
     root_nodes pcm = all_parents pcm ∖ all_children pcm)
  ∧ (all_parents pcm ∖ all_children pcm = ∅ → root_nodes pcm = all_parents pcm)
  ∧ root_nodes pcm ⊆ all_parents pcm
  ∧ (pcm ≠ [] → root_nodes pcm ≠ ∅)
  ∧ (∃ h, build_forest pcm = Returns h ∧ h.*1 = elements (root_nodes pcm)).
Proof.
  split; [|split; [|split; [|split; [|split]]]].
  - intros x. rewrite elem_of_difference, elem_of_all_children.
    unfold all_parents. rewrite elem_of_list_to_set. naive_solver.
  - intros Hne. unfold root_nodes. simpl. by rewrite decide_False.
  - intros He. unfold root_nodes. simpl. by rewrite decide_True.
  - apply root_nodes_subseteq.
  - intros Hpcm. unfold root_nodes. simpl. case_decide as Hd; [|done].
    destruct pcm as [|[k e] pcm']; [done|].
    unfold all_parents, od_keys. rewrite fmap_cons. simpl. set_solver.
  - destruct (build_forest_spec pcm) as (h & Hh & Hkeys & _). by exists h.
Qed.

(** C6, as the code has it, refuted as stated: on the ring the roots
    are not the bare names A, B, C, and they are not found by the
    fallback, since keys that are nobody's child exist. *)
Lemma ring_roots_not_bare :
  ∃ pcm, build_map (Some ring_edges) balance_role = Returns pcm
         ∧ root_nodes pcm ≠ {[ "A"; "B"; "C" ]}
         ∧ all_parents pcm ∖ all_children pcm ≠ ∅.
Proof.
  eexists. split; [vm_compute; reflexivity|].
  split; apply (bool_decide_unpack _); by vm_compute.
Qed.

(** C6, amended. On the ring A→B, B→C, C→A the roots are the three
    concepts under their prefixed parent names; the forest has a tree
    for each and is not empty. *)
Theorem ring_roots_prefixed :
  ∃ pcm h,
    build_map (Some ring_edges) balance_role = Returns pcm
    ∧ root_nodes pcm = {[ "[Balance] A"; "[Balance] B"; "[Balance] C" ]}
    ∧ process_relationships parent_child (Some ring_edges) balance_role = Returns h
    ∧ h ≡ₚ [ ("[Balance] A", mkNode "[Balance] A" false [mkNode "B" false []]);
             ("[Balance] B", mkNode "[Balance] B" false [mkNode "C" false []]);
             ("[Balance] C", mkNode "[Balance] C" false [mkNode "A" false []]) ].
Proof.
  eexists. eexists. split; [vm_compute; reflexivity|].
  split; [by vm_compute|].
  split; [vm_compute; reflexivity|].
  by rewrite (Permutation_cons_append _ ("[Balance] C", _)).
Qed.

Lemma bare_names_never_prefixed elr rels :
  (∀ kc, kc ∈ named_edges elr rels → starts_with_bracket kc.2 = false) →
  bare_never_prefixed elr rels.
Proof.
  intros Hbare. unfold bare_never_prefixed.
  apply Forall_forall. intros [k c] Hkc. apply Forall_forall. intros [k' c'] Hkc'.
  simpl. intros ->.
  apply elem_of_named_edges in Hkc' as (_ & _ & _ & qp & _ & _ & _ & _ & _ & _ & Hk' & _).
  specialize (Hbare _ Hkc). simpl in Hbare. by rewrite Hk' in Hbare.
Qed.

(** C10. In the link-role-scoped builder children are recorded under
    prefixed parent names only and child names are bare; as no bare name
    is a prefixed name, every child of every returned tree is a leaf and
    no returned tree has more than two levels. *)
Theorem trees_are_two_levels arcrole relationship_set elr pcm :
  build_map relationship_set elr = Returns pcm →
  bare_never_prefixed elr (default [] relationship_set) →
  (∀ k e c, (k, e) ∈ pcm → c ∈ entry_children e →
            names_an_edge elr (default [] relationship_set) k c)
  ∧ ∃ h, process_relationships arcrole relationship_set elr = Returns h
         ∧ ∀ root tree,
             (root, tree) ∈ h →
             (∀ c, c ∈ children tree → leaf c) ∧ height tree ≤ 2.
Proof.
  intros Hmap Hbare. destruct (build_map_sound _ _ _ Hmap) as [Hsound _].
  split.
  - intros k e c Hin Hc. by apply elem_of_named_edges, (Hsound k e c).
  - destruct (process_relationships_spec arcrole _ _ _ Hmap) as (h & Hh & _ & Hbuilt).
    exists h. split; [done|]. intros root tree Hin.
    pose proof (Hbuilt _ _ Hin) as Hb.
    assert (∀ c, c ∈ children tree → leaf c) as Hleaf.
    { intros c Hc. unfold leaf. destruct (children c) as [|d ds] eqn:Hd; [done|].
      exfalso.
      assert (tree ∈ subnodes tree) as Ht by (rewrite subnodes_eq; left).
      assert (c ∈ subnodes tree) as Hcs.
      { rewrite subnodes_eq. right. apply list_elem_of_bind. exists c.
        split; [rewrite subnodes_eq; left|done]. }
      assert (d ∈ children c) as Hdc by (rewrite Hd; left).
      pose proof (get_node_data_sound _ _ _ _ Hsound (built_children _ _ _ _ Hb _ _ Ht Hc))
        as He1.
      pose proof (get_node_data_sound _ _ _ _ Hsound (built_children _ _ _ _ Hb _ _ Hcs Hdc))
        as He2.
      unfold bare_never_prefixed in Hbare.
      rewrite Forall_forall in Hbare. specialize (Hbare _ He1).
      rewrite Forall_forall in Hbare. by apply (Hbare _ He2). }
    split; [done|].
    rewrite height_eq. apply le_n_S, max_list_le_bound, Forall_forall.
    intros x (c & -> & Hc)%list_elem_of_fmap.
    rewrite height_eq, (Hleaf c Hc). done.
Qed.

(** The diamond A→B, A→C, B→D, C→D under the Balance role. *)
Lemma trees_are_two_levels_diamond :
  (∀ k e c,
     (k, e) ∈ [ ("[Balance] A", mkEntry false ["B"; "C"] None);
                ("B", mkEntry false [] (Some "[Balance] A"));
                ("C", mkEntry false [] (Some "[Balance] A"));
                ("[Balance] B", mkEntry false ["D"] None);
                ("D", mkEntry false [] (Some "[Balance] C"));
                ("[Balance] C", mkEntry false ["D"] None) ] →
     c ∈ entry_children e →
     names_an_edge balance_role diamond_edges k c)
  ∧ ∃ h, process_relationships parent_child (Some diamond_edges) balance_role = Returns h
         ∧ ∀ root tree,
             (root, tree) ∈ h →
             (∀ c, c ∈ children tree → leaf c) ∧ height tree ≤ 2.
Proof.
  apply (trees_are_two_levels parent_child (Some diamond_edges) balance_role).
  - vm_compute. reflexivity.
  - apply (bool_decide_unpack _). vm_compute. exact I.
Defined.

(** Why the premise of [trees_are_two_levels] is there: a Python string
    may open with a bracket, which no XML local name does, and a child of
    that name meets the entry of a parent. *)
Remark bracketed_child_name_chains :
  process_relationships parent_child
    (Some [arc "A" "[Balance] B"; arc "B" "C"]) balance_role
  = Returns [ ("[Balance] A",
               mkNode "[Balance] A" false
                 [mkNode "[Balance] B" false [mkNode "C" false []]]) ].
Proof. vm_compute. reflexivity. Qed.

(** Without the premise the trees are not confined to two levels: for
    the child name "[Balance] B" and the parent B, the tree of A has
    three levels, and its child is not a leaf. *)
Lemma three_levels_for_a_bracketed_child :
  ¬ bare_never_prefixed balance_role [arc "A" "[Balance] B"; arc "B" "C"]
  ∧ ∃ h root tree,
      process_relationships parent_child
        (Some [arc "A" "[Balance] B"; arc "B" "C"]) balance_role = Returns h
      ∧ (root, tree) ∈ h
      ∧ height tree = 3
      ∧ ∃ c, c ∈ children tree ∧ ¬ leaf c.
Proof.
  split.
  - intros Hbare. apply Forall_cons in Hbare as [Hfirst _].
    apply Forall_cons in Hfirst as [_ Hsecond].
    apply Forall_cons in Hsecond as [Hne _]. by apply Hne.
  - eexists _, "[Balance] A", _. split; [vm_compute; reflexivity|].
    split; [left|]. split; [reflexivity|].
    eexists. split; [left|]. unfold leaf. simpl. discriminate.
Qed.

End DimensionClaims.

(** ** Statements about [taxonomy_parser.py] *)

Module TaxonomyClaims.
Import Arelle TaxonomyParser TaxonomySpec Examples.

(** C3. Merging the scopes of the dimensional arc-roles. Into
    [unified_dimensions] of [parse_taxonomy]: a parent not yet there is
    stored with the scope's own details, after the parents already
    there; for a parent already there the scope's children are appended
    to its children as they are, duplicates included, so two scopes that
    both give X under P leave X twice under P. Into [dimensions] of
    [parse_dimensions]: [update] puts the scope's tree in the place of
    the tree of a root already there, so the same two scopes leave X
    once under P, and of two scopes that give X and Y under P only Y is
    left. *)
Theorem merge_extends_but_update_replaces :
  (∀ unified_dimensions parent det,
     od_mem parent unified_dimensions = false →
     merge_parent unified_dimensions (parent, det) = unified_dimensions ++ [(parent, det)])
  ∧ (∀ unified_dimensions parent det d,
       od_get parent unified_dimensions = Some d →
       od_get parent (merge_parent unified_dimensions (parent, det))
         = Some (mkDetails (abstract d) (children d ++ children det))
       ∧ od_keys (merge_parent unified_dimensions (parent, det))
         = od_keys unified_dimensions)
  ∧ parse_taxonomy_dimensions two_scopes
    = [ ("P", mkDetails false [mkChild "X" false; mkChild "X" false; mkChild "Y" false]) ]
  ∧ parse_taxonomy_dimensions disjoint_scopes
    = [ ("P", mkDetails false [mkChild "X" false; mkChild "Y" false]) ]
  ∧ (∀ dimensions root tree,
       od_get root (DimensionParser.update dimensions [(root, tree)]) = Some tree)
  ∧ DimensionParser.parse_dimensions two_scopes_model
    = Returns [ ("[Balance] P",
                 DimensionParser.mkNode "[Balance] P" false
                   [ DimensionParser.mkNode "X" false [];
                     DimensionParser.mkNode "Y" false [] ]) ]
  ∧ DimensionParser.parse_dimensions disjoint_scopes_model
    = Returns [ ("[Balance] P",
                 DimensionParser.mkNode "[Balance] P" false
                   [ DimensionParser.mkNode "Y" false [] ]) ].
Proof.
  split; [|split; [|split; [|split; [|split; [|split]]]]].
  - intros u parent det Hmem. unfold merge_parent. rewrite Hmem.
    apply od_set_fresh. by apply od_mem_false.
  - intros u parent det d Hget. unfold merge_parent.
    assert (od_mem parent u = true) as ->.
    { apply od_mem_spec, od_get_is_Some. by rewrite Hget. }
    split.
    + by rewrite od_get_alter, Hget.
    + unfold od_keys. apply od_alter_keys.
  - vm_compute. reflexivity.
  - vm_compute. reflexivity.
  - intros dimensions root tree. unfold DimensionParser.update. simpl.
    by rewrite od_get_set, decide_True.
  - vm_compute. reflexivity.
  - vm_compute. reflexivity.
Qed.

Lemma record_edge_skipped h sk rel e :
  skip_entry rel = Some e → record_edge (h, sk) rel = (h, sk ++ [e]).
Proof.
  unfold skip_entry, record_edge.
  destruct (fromModelObject rel) as [parent|], (toModelObject rel) as [child|];
    try by intros [= <-].
  destruct (negb (getattr_qname_truthy parent) || negb (getattr_qname_truthy child));
    [by intros [= <-]|done].
Qed.

Lemma record_edge_kept h sk rel :
  skip_entry rel = None → record_edge (h, sk) rel = ((record_edge (h, []) rel).1, sk).
Proof.
  unfold skip_entry, record_edge.
  destruct (fromModelObject rel) as [parent|], (toModelObject rel) as [child|]; try done.
  by destruct (negb (getattr_qname_truthy parent) || negb (getattr_qname_truthy child)).
Qed.

(** Skip and continue in [taxonomy_parser.process_relationships]: the
    hierarchy is the one built from the kept records alone, and every
    excluded record leaves its entry, in order, on [skipped_relationships].
    No input raises. *)
Lemma skip_and_continue arcrole rels :
  process_relationships_state arcrole (Some rels)
  = (process_relationships arcrole (Some (filter (λ rel, kept rel = true) rels)),
     omap skip_entry rels).
Proof.
  unfold process_relationships, process_relationships_state. simpl.
  assert (∀ h sk,
            fold_left record_edge rels (h, sk)
            = ((fold_left record_edge (filter (λ rel, kept rel = true) rels) (h, [])).1,
               sk ++ omap skip_entry rels)) as Hloop; [|apply (Hloop [] [])].
  induction rels as [|rel rels IH]; intros h sk.
  { simpl. by rewrite app_nil_r. }
  destruct (skip_entry rel) as [e|] eqn:He.
  - rewrite filter_cons_False.
    2:{ unfold kept. rewrite He. by rewrite bool_decide_eq_true. }
    cbn [fold_left omap list_omap]. rewrite He.
    rewrite (record_edge_skipped _ _ _ _ He), IH. by rewrite <- app_assoc.
  - rewrite filter_cons_True.
    2:{ unfold kept. rewrite He. by rewrite bool_decide_eq_true. }
    cbn [fold_left omap list_omap]. rewrite He.
    rewrite (record_edge_kept h sk _ He), IH.
    pose proof (record_edge_kept h [] _ He) as Hx.
    by rewrite <- Hx.
Qed.

(** [dimension_parser.parse_dimensions] merges with [update]: of the two
    scopes that both put X under P, the later one's tree for P stands
    alone, with X once. *)
Remark parse_dimensions_replaces :
  DimensionParser.parse_dimensions two_scopes_model
  = Returns [ ("[Balance] P",
               DimensionParser.mkNode "[Balance] P" false
                 [ DimensionParser.mkNode "X" false [];
                   DimensionParser.mkNode "Y" false [] ]) ].
Proof. vm_compute. reflexivity. Qed.

(** C7. Fan-in is kept: on the diamond A→B, A→C, B→D, C→D the child D
    is recorded under B and under C, in the flat hierarchy of
    [taxonomy_parser.py] and in the trees of [dimension_parser.py]
    (where B and C carry the role prefix as parents), which makes two
    occurrences of D; and [build_hierarchy] itself builds D once for
    each branch, because a name leaves [visited] when its call
    returns. *)
Theorem fan_in_preserved :
  (let hierarchy := process_relationships parent_child (Some diamond_edges) in
   (name <$> children_of "B" hierarchy) = ["D"]
   ∧ (name <$> children_of "C" hierarchy) = ["D"])
  ∧ (∃ h,
       DimensionParser.process_relationships parent_child (Some diamond_edges) balance_role
         = Returns h
       ∧ od_get "[Balance] B" h
         = Some (DimensionParser.mkNode "[Balance] B" false
                   [DimensionParser.mkNode "D" false []])
       ∧ od_get "[Balance] C" h
         = Some (DimensionParser.mkNode "[Balance] C" false
                   [DimensionParser.mkNode "D" false []])
       ∧ sum_list (DimensionParser.occurrences "D" <$> h.*2) = 2)
  ∧ DimensionParser.build_hierarchy diamond_map
      (DimensionParser.enough_fuel diamond_map) "A" ∅
    = Returns
        (Some (DimensionParser.mkNode "A" false
                 [ DimensionParser.mkNode "B" false [DimensionParser.mkNode "D" false []];
                   DimensionParser.mkNode "C" false [DimensionParser.mkNode "D" false []] ]),
         ∅).
Proof.
  split; [|split].
  - by vm_compute.
  - eexists. split; [vm_compute; reflexivity|]. by vm_compute.
  - vm_compute. reflexivity.
Qed.

(** *** The formula walker *)

Section formula_facts.
Context {Obj : Type} `{Countable Obj}.
Variable xlinkLabel : Obj → option string.
Variable localName : Obj → string.
Variable relationship_set : option (Obj → list (option Obj)).

Lemma visit_children_returns
    (recurse : Obj → odict formula_entry → gset Obj
               → outcome (odict formula_entry * gset Obj))
    parent_name (targets : list (option Obj)) :
  (∀ child child_hierarchy visited,
     ∃ r, recurse child child_hierarchy visited = Returns r) →
  ∀ hierarchy visited,
    ∃ r, visit_children recurse parent_name targets hierarchy visited = Returns r.
Proof.
  intros Hrec. induction targets as [|[child|] targets IH]; intros h v; simpl.
  - by eexists.
  - destruct (Hrec child [] v) as ([ch v'] & ->). simpl. apply IH.
  - apply IH.
Qed.

(** The depth guard comes first: beyond the bound nothing is touched. *)
Lemma process_formula_object_beyond fuel obj hierarchy visited depth max_depth :
  max_depth < depth →
  process_formula_object xlinkLabel localName relationship_set
    fuel obj hierarchy visited depth max_depth = Returns (hierarchy, visited).
Proof. intros Hd. destruct fuel; simpl; by rewrite decide_True. Qed.

(** With fuel for the levels left up to the bound, the walk returns. *)
Lemma process_formula_object_returns max_depth fuel :
  ∀ obj hierarchy visited depth,
    max_depth < fuel + depth →
    ∃ r, process_formula_object xlinkLabel localName relationship_set
           fuel obj hierarchy visited depth max_depth = Returns r.
Proof.
  induction fuel as [|fuel IH]; intros obj h v depth Hfuel.
  - rewrite process_formula_object_beyond by lia. by eexists.
  - simpl. case_decide; [by eexists|]. case_decide; [by eexists|].
    destruct relationship_set as [from|].
    + edestruct (visit_children_returns
                   (λ child child_hierarchy visited,
                      process_formula_object xlinkLabel localName (Some from)
                        fuel child child_hierarchy visited (S depth) max_depth))
        as ([h' v'] & ->).
      * intros child ch v'. apply IH. lia.
      * simpl. by eexists.
    + simpl. by eexists.
Qed.
End formula_facts.

(** C8. The formula walk with the default bound of 100 returns on every
    object graph; a call at a depth beyond 100 returns at once and
    changes nothing; and on the chain of 150 objects the hierarchy holds
    the objects of depth 0 to 100, one inside the other, and nothing of
    the objects below. *)
Theorem depth_bounded_walk :
  (∀ (Obj : Type) `(Countable Obj) xlinkLabel localName relationship_set
     (obj : Obj) hierarchy,
     ∃ r, process_formula_root xlinkLabel localName relationship_set obj hierarchy
          = Returns r)
  ∧ (∀ (Obj : Type) `(Countable Obj) xlinkLabel localName relationship_set
       fuel (obj : Obj) hierarchy visited extra,
       process_formula_object xlinkLabel localName relationship_set
         fuel obj hierarchy visited (101 + extra) default_max_depth
       = Returns (hierarchy, visited))
  ∧ process_formula_root chain_label chain_local (Some chain_targets) 0 []
    = Returns (nested_chain 101 0, ∅)
  ∧ hierarchy_labels (nested_chain 101 0) = (λ n, "obj" +:+ pretty n) <$> seq 0 101.
Proof.
  split; [|split; [|split]].
  - intros. apply process_formula_object_returns. unfold default_max_depth. lia.
  - intros. apply process_formula_object_beyond. unfold default_max_depth. lia.
  - vm_compute. reflexivity.
  - vm_compute. reflexivity.
Qed.

(** C9. An end whose [qname] is [None] is skipped and recorded by
    [taxonomy_parser.process_relationships], which goes on to the next
    record, while [dimension_parser.process_relationships], whose guard
    only asks whether the attribute exists, raises on the same input;
    an end without the attribute is dropped by both. *)
Theorem none_qname_skipped_or_raised :
  process_relationships_state parent_child
    (Some [mkRel (Some unnamed) (Some (concept "B")); arc "A" "B"])
  = ([("A", mkDetails false [mkChild "B" false])],
     [(Some unnamed, Some (concept "B"), "Missing QName")])
  ∧ DimensionParser.process_relationships parent_child
      (Some [mkRel (Some unnamed) (Some (concept "B")); arc "A" "B"]) balance_role
    = Raises AttributeError
  ∧ process_relationships_state parent_child
      (Some [mkRel (Some plain) (Some (concept "B")); mkRel None (Some (concept "B"));
             arc "A" "B"])
    = ([("A", mkDetails false [mkChild "B" false])],
       [(Some plain, Some (concept "B"), "Missing QName");
        (None, Some (concept "B"), "Parent or child is None")])
  ∧ DimensionParser.process_relationships parent_child
      (Some [mkRel (Some plain) (Some (concept "B")); mkRel None (Some (concept "B"));
             arc "A" "B"]) balance_role
    = Returns [("[Balance] A",
                DimensionParser.mkNode "[Balance] A" false
                  [DimensionParser.mkNode "B" false []])].
Proof. repeat split; vm_compute; reflexivity. Qed.

End TaxonomyClaims.

(** * More of the code *)

(** ** Order of first appearance *)

Section first_seen_facts.
Context {A : Type} `{EqDecision A}.
Implicit Types (x : A) (l : list A).

Lemma first_seen_snoc l x : first_seen (l ++ [x]) = add_new x (first_seen l).
Proof. unfold first_seen. by rewrite fold_left_app. Qed.

Lemma elem_of_add_new y x l : y ∈ add_new x l ↔ y ∈ l ∨ y = x.
Proof.
  unfold add_new. case_decide; [naive_solver|].
  rewrite elem_of_app, list_elem_of_singleton. done.
Qed.

Lemma NoDup_add_new x l : NoDup l → NoDup (add_new x l).
Proof.
  intros Hl. unfold add_new. case_decide; [done|].
  apply NoDup_app. split; [done|]. split; [|apply NoDup_singleton].
  intros y Hy ->%list_elem_of_singleton. done.
Qed.

Lemma elem_of_first_seen y l : y ∈ first_seen l ↔ y ∈ l.
Proof.
  induction l as [|x l IH] using rev_ind; [done|].
  rewrite first_seen_snoc, elem_of_add_new, IH, elem_of_app, list_elem_of_singleton.
  done.
Qed.

Lemma NoDup_first_seen l : NoDup (first_seen l).
Proof.
  induction l as [|x l IH] using rev_ind; [apply NoDup_nil_2|].
  rewrite first_seen_snoc. by apply NoDup_add_new.
Qed.

Lemma add_new_elem x l : x ∈ l → add_new x l = l.
Proof. intros Hx. unfold add_new. by rewrite decide_True. Qed.

Lemma add_new_idem x l : add_new x (add_new x l) = add_new x l.
Proof.
  unfold add_new at 1. rewrite decide_True; [done|].
  rewrite elem_of_add_new. by right.
Qed.
End first_seen_facts.

Lemma children_named_snoc p edges pn cn :
  children_named p (edges ++ [(pn, cn)])
  = if decide (p = pn) then children_named p edges ++ [cn] else children_named p edges.
Proof.
  unfold children_named. rewrite filter_app, fmap_app.
  case_decide as Hp.
  - subst p. by rewrite filter_cons_True.
  - rewrite filter_cons_False by (simpl; congruence). simpl. by rewrite app_nil_r.
Qed.

Lemma elem_of_children_named p c edges : c ∈ children_named p edges ↔ (p, c) ∈ edges.
Proof.
  unfold children_named. rewrite list_elem_of_fmap. split.
  - intros ([p' c'] & -> & [Hp Hin]%list_elem_of_filter). simpl in Hp. by subst p'.
  - intros Hin. exists (p, c). split; [done|]. by apply list_elem_of_filter.
Qed.

(** ** More about [taxonomy_parser.process_relationships] *)

Module TaxonomyExtras.
Import Arelle TaxonomyParser TaxonomySpec TaxonomyEdges.

Lemma existsb_name cn (cs : list child_ref) :
  existsb (λ c, bool_decide (name c = cn)) cs = bool_decide (cn ∈ name <$> cs).
Proof.
  induction cs as [|c cs IH]; [done|].
  cbn [existsb]. rewrite IH, fmap_cons.
  destruct (decide (name c = cn)) as [<-|Hne].
  - rewrite bool_decide_eq_true_2 by done. simpl.
    symmetry. apply bool_decide_eq_true_2. left.
  - rewrite bool_decide_eq_false_2 by done. simpl.
    apply bool_decide_ext. rewrite elem_of_cons. naive_solver.
Qed.

Lemma children_of_set_fresh p k d h :
  od_mem k h = false → children d = [] →
  children_of p (od_set k d h) = children_of p h.
Proof.
  intros Hmem Hd. unfold children_of. rewrite od_get_set.
  case_decide as Hp; [|done]. subst k. simpl.
  apply od_mem_false, od_get_None in Hmem. by rewrite Hmem.
Qed.

Lemma children_of_append p k c h :
  od_mem k h = true →
  children_of p (od_alter (append_child c) k h)
  = if decide (p = k) then children_of p h ++ [c] else children_of p h.
Proof.
  intros Hmem. unfold children_of. case_decide as Hp.
  - subst k. rewrite od_get_alter.
    apply od_mem_spec, od_get_is_Some in Hmem as [d ->]. done.
  - by rewrite od_get_alter_ne.
Qed.

(** One kept record: the parent becomes a key if it is new, the child
    becomes a child of the parent if no child of that name is there. *)
Lemma record_edge_kept_edge h sk rel pn cn :
  kept_edge rel = Some (pn, cn) →
  ∃ h', record_edge (h, sk) rel = (h', sk)
        ∧ od_keys h' = add_new pn (od_keys h)
        ∧ ∀ p, name <$> children_of p h'
               = if decide (p = pn) then add_new cn (name <$> children_of p h)
                 else name <$> children_of p h.
Proof.
  unfold kept_edge, record_edge.
  destruct (fromModelObject rel) as [parent|], (toModelObject rel) as [child|]; try done.
  destruct (negb (getattr_qname_truthy parent) || negb (getattr_qname_truthy child));
    [done|].
  intros [= <- <-].
  set (pn := str_qname parent). set (cn := str_qname child).
  set (h1 := if od_mem pn h then h else _).
  assert (od_mem pn h1 = true ∧ od_keys h1 = add_new pn (od_keys h)
          ∧ ∀ p, children_of p h1 = children_of p h) as (Hmem1 & Hk1 & Hc1).
  { subst h1. unfold add_new, od_keys. destruct (od_mem pn h) eqn:Hmem.
    - split; [done|]. split; [|done].
      apply od_mem_spec in Hmem. by rewrite decide_True.
    - split; [|split].
      + apply od_mem_spec. rewrite od_set_fresh by (by apply od_mem_false).
        rewrite fmap_app. set_solver.
      + pose proof (proj1 (od_mem_false _ _) Hmem) as Hn.
        rewrite decide_False by done. rewrite od_set_fresh by done.
        by rewrite fmap_app.
      + intros p. by apply children_of_set_fresh. }
  rewrite existsb_name.
  destruct (bool_decide (cn ∈ name <$> children_of pn h1)) eqn:Hex.
  - exists h1. split; [done|]. split; [done|]. intros p. rewrite Hc1.
    apply bool_decide_eq_true in Hex. rewrite Hc1 in Hex.
    destruct (decide (p = pn)) as [Hp|Hp]; [rewrite Hp|done].
    unfold add_new. by rewrite decide_True.
  - eexists. split; [done|]. split.
    + unfold od_keys. by rewrite od_alter_keys.
    + intros p. rewrite children_of_append by done. rewrite <- Hc1.
      apply bool_decide_eq_false in Hex.
      destruct (decide (p = pn)) as [Hp|Hp]; [rewrite Hp|done].
      unfold add_new. rewrite decide_False by done.
      by rewrite fmap_app.
Qed.

Lemma record_edge_not_kept h sk rel :
  kept_edge rel = None → (record_edge (h, sk) rel).1 = h.
Proof.
  unfold kept_edge, record_edge.
  destruct (fromModelObject rel) as [parent|], (toModelObject rel) as [child|]; try done.
  by destruct (negb (getattr_qname_truthy parent) || negb (getattr_qname_truthy child)).
Qed.

Lemma kept_edges_cons rel rels :
  kept_edges (rel :: rels)
  = match kept_edge rel with
    | Some e => e :: kept_edges rels
    | None => kept_edges rels
    end.
Proof. reflexivity. Qed.

(** The hierarchy after the loop, read off the kept records alone. *)
Lemma fold_record_edge_first_seen rels :
  ∀ edges h sk,
    od_keys h = first_seen edges.*1 →
    (∀ p, name <$> children_of p h = first_seen (children_named p edges)) →
    od_keys (fold_left record_edge rels (h, sk)).1
    = first_seen (edges ++ kept_edges rels).*1
    ∧ ∀ p, name <$> children_of p (fold_left record_edge rels (h, sk)).1
           = first_seen (children_named p (edges ++ kept_edges rels)).
Proof.
  induction rels as [|rel rels IH]; intros edges h sk Hk Hc.
  { change (kept_edges []) with (@nil (string * string)). by rewrite app_nil_r. }
  rewrite kept_edges_cons. cbn [fold_left].
  destruct (kept_edge rel) as [[pn cn]|] eqn:Hrel.
  - destruct (record_edge_kept_edge h sk rel pn cn Hrel) as (h1 & -> & Hk1 & Hc1).
    rewrite (cons_middle (pn, cn)), app_assoc.
    apply IH.
    + rewrite fmap_app. change ([(pn, cn)].*1) with [pn].
      by rewrite first_seen_snoc, <- Hk.
    + intros p. rewrite Hc1, children_named_snoc.
      case_decide; [|done]. by rewrite first_seen_snoc, Hc.
  - pose proof (record_edge_not_kept h sk rel Hrel) as Hsame.
    destruct (record_edge (h, sk) rel) as [h1 sk1]. simpl in Hsame. subst h1.
    by apply IH.
Qed.

Lemma flat_hierarchy_spec arcrole rels :
  let h := process_relationships arcrole (Some rels) in
  od_keys h = first_seen (kept_edges rels).*1
  ∧ ∀ p, name <$> children_of p h = first_seen (children_named p (kept_edges rels)).
Proof.
  apply (fold_record_edge_first_seen rels [] [] []); done.
Qed.

(** X1. The flat hierarchy holds exactly the kept records: its parents
    are the parents of the kept records in order of first appearance,
    and the children of a parent are the child names of its kept records,
    each once, in order of first appearance. *)
Theorem flat_hierarchy_first_seen arcrole rels :
  let h := process_relationships arcrole (Some rels) in
  od_keys h = first_seen (kept_edges rels).*1
  ∧ ∀ p, name <$> children_of p h = first_seen (children_named p (kept_edges rels)).
Proof.
  apply (fold_record_edge_first_seen rels [] [] []); done.
Qed.

(** A kept record whose edge is already there changes nothing. *)
Lemma record_edge_present h sk rel pn cn :
  kept_edge rel = Some (pn, cn) →
  pn ∈ od_keys h → cn ∈ name <$> children_of pn h →
  record_edge (h, sk) rel = (h, sk).
Proof.
  unfold kept_edge, record_edge.
  destruct (fromModelObject rel) as [parent|], (toModelObject rel) as [child|]; try done.
  destruct (negb (getattr_qname_truthy parent) || negb (getattr_qname_truthy child));
    [done|].
  intros [= <- <-] Hp Hc.
  apply od_mem_spec in Hp. rewrite Hp, existsb_name.
  by rewrite bool_decide_eq_true_2.
Qed.

Lemma fold_record_edge_present rels h sk :
  (∀ pn cn, (pn, cn) ∈ kept_edges rels →
            pn ∈ od_keys h ∧ cn ∈ name <$> children_of pn h) →
  (fold_left record_edge rels (h, sk)).1 = h.
Proof.
  revert sk. induction rels as [|rel rels IH]; intros sk Hall; [done|].
  cbn [fold_left]. rewrite kept_edges_cons in Hall.
  destruct (kept_edge rel) as [[pn cn]|] eqn:Hrel.
  - destruct (Hall pn cn) as [Hp Hc]; [left|].
    rewrite (record_edge_present _ _ _ _ _ Hrel Hp Hc).
    apply IH. intros pn' cn' Hin. apply Hall. by right.
  - pose proof (record_edge_not_kept h sk rel Hrel) as Hsame.
    destruct (record_edge (h, sk) rel) as [h1 sk1]. simpl in Hsame. subst h1.
    by apply IH.
Qed.

Lemma process_relationships_fold arcrole rels :
  process_relationships arcrole (Some rels) = (fold_left record_edge rels ([], [])).1.
Proof. reflexivity. Qed.

(** X2. Records that repeat edges already entered change nothing: if
    every kept edge of [more] is a kept edge of [rels], the hierarchy of
    [rels ++ more] is the hierarchy of [rels], abstract flags included. *)
Theorem repeated_edges_change_nothing arcrole rels more :
  (∀ e, e ∈ kept_edges more → e ∈ kept_edges rels) →
  process_relationships arcrole (Some (rels ++ more))
  = process_relationships arcrole (Some rels).
Proof.
  intros Hsub. rewrite !process_relationships_fold, fold_left_app.
  destruct (flat_hierarchy_spec arcrole rels) as [Hk Hc].
  rewrite process_relationships_fold in Hk, Hc.
  destruct (fold_left record_edge rels ([], [])) as [h sk]. simpl in Hk, Hc. simpl.
  apply fold_record_edge_present. intros pn cn Hin. apply Hsub in Hin. split.
  - rewrite Hk, elem_of_first_seen. apply list_elem_of_fmap. by exists (pn, cn).
  - by rewrite Hc, elem_of_first_seen, elem_of_children_named.
Qed.

(** The diamond, then its first edge twice more. *)
Lemma repeated_edges_change_nothing_diamond :
  process_relationships Examples.parent_child
    (Some (Examples.diamond_edges ++ [Examples.arc "A" "B"; Examples.arc "A" "B"]))
  = process_relationships Examples.parent_child (Some Examples.diamond_edges).
Proof.
  apply (repeated_edges_change_nothing Examples.parent_child Examples.diamond_edges
           [Examples.arc "A" "B"; Examples.arc "A" "B"]).
  intros e He. vm_compute in He. vm_compute.
  apply elem_of_cons in He as [->|He]; [left|].
  apply elem_of_cons in He as [->|He]; [left|]. by apply elem_of_nil in He.
Defined.

(** *** The merge of [parse_taxonomy] as a whole *)

Lemma merge_parent_children p u p' d' :
  children_of p (merge_parent u (p', d'))
  = children_of p u ++ (if decide (p = p') then children d' else []).
Proof.
  unfold merge_parent, children_of. destruct (od_mem p' u) eqn:Hmem.
  - destruct (decide (p = p')) as [->|Hne].
    + rewrite od_get_alter.
      apply od_mem_spec, od_get_is_Some in Hmem as [d ->]. done.
    + rewrite od_get_alter_ne by done. by rewrite app_nil_r.
  - rewrite od_get_set. destruct (decide (p = p')) as [->|Hne].
    + apply od_mem_false, od_get_None in Hmem. by rewrite Hmem.
    + by rewrite app_nil_r.
Qed.

Lemma merge_parent_keys u p' d' :
  od_keys (merge_parent u (p', d')) = add_new p' (od_keys u).
Proof.
  unfold merge_parent, add_new, od_keys. destruct (od_mem p' u) eqn:Hmem.
  - rewrite od_alter_keys. apply od_mem_spec in Hmem. by rewrite decide_True.
  - pose proof (proj1 (od_mem_false _ _) Hmem) as Hn.
    rewrite decide_False by done. rewrite od_set_fresh by done. by rewrite fmap_app.
Qed.

Lemma children_of_NoDup p (s : odict details) :
  NoDup (od_keys s) →
  (s ≫= λ kv, if decide (p = kv.1) then children kv.2 else []) = children_of p s.
Proof.
  unfold children_of, od_keys. induction s as [|[k d] s IH]; [done|].
  rewrite fmap_cons, NoDup_cons. intros [Hk Hs]. simpl in Hk.
  rewrite bind_cons, (IH Hs). cbn [od_get fst snd].
  destruct (decide (p = k)) as [->|Hne]; [|done].
  apply od_get_None in Hk. rewrite Hk. simpl. by rewrite app_nil_r.
Qed.

Lemma merge_scope_children p u s :
  NoDup (od_keys s) →
  children_of p (merge_scope u s) = children_of p u ++ children_of p s.
Proof.
  intros Hs. rewrite <- (children_of_NoDup p s Hs). clear Hs. unfold merge_scope.
  revert u. induction s as [|[k d] s IH]; intros u.
  - simpl. by rewrite app_nil_r.
  - cbn [fold_left]. rewrite IH, merge_parent_children, <- app_assoc. done.
Qed.

Lemma merge_scope_keys u s :
  od_keys (merge_scope u s) = fold_left (λ seen x, add_new x seen) (od_keys s) (od_keys u).
Proof.
  unfold merge_scope. revert u. induction s as [|[k d] s IH]; intros u; [done|].
  cbn [fold_left]. rewrite IH, merge_parent_keys. done.
Qed.

(** The hierarchy one arc-role contributes: that of its relationship
    set, or nothing when the taxonomy has no such set. *)
Lemma process_relationships_NoDup arcrole rels :
  NoDup (od_keys (process_relationships arcrole (Some rels))).
Proof.
  destruct (flat_hierarchy_spec arcrole rels) as [-> _]. apply NoDup_first_seen.
Qed.

Lemma fold_add_new_first_seen {A} `{EqDecision A} (l1 l2 : list A) :
  fold_left (λ seen x, add_new x seen) l2 (first_seen l1) = first_seen (l1 ++ l2).
Proof. unfold first_seen. by rewrite fold_left_app. Qed.

Lemma scope_hierarchy_NoDup relationshipSet arcrole :
  NoDup (od_keys (scope_hierarchy relationshipSet arcrole)).
Proof.
  unfold scope_hierarchy. destruct (relationshipSet arcrole).
  - apply process_relationships_NoDup.
  - apply NoDup_nil_2.
Qed.

Lemma merge_step_scope relationshipSet u arcrole :
  match relationshipSet arcrole with
  | Some rels => merge_scope u (process_relationships arcrole (Some rels))
  | None => u
  end = merge_scope u (scope_hierarchy relationshipSet arcrole).
Proof. unfold scope_hierarchy. by destruct (relationshipSet arcrole). Qed.

(** X3. The unified dimensions as a whole: the children of a parent are
    its children under hypercube-dimension, then those under
    dimension-domain, then those under domain-member, nothing removed;
    and the parents stand in the order in which the three hierarchies
    first bring them. *)
Theorem unified_dimensions_concatenate relationshipSet :
  (∀ p, children_of p (parse_taxonomy_dimensions relationshipSet)
        = dim_arcroles ≫= λ arcrole, children_of p (scope_hierarchy relationshipSet arcrole))
  ∧ od_keys (parse_taxonomy_dimensions relationshipSet)
    = first_seen (dim_arcroles ≫= λ arcrole, od_keys (scope_hierarchy relationshipSet arcrole)).
Proof.
  unfold parse_taxonomy_dimensions.
  set (step := λ (unified_dimensions : odict details) (arcrole : string),
         match relationshipSet arcrole with
         | Some rels =>
             merge_scope unified_dimensions (process_relationships arcrole (Some rels))
         | None => unified_dimensions
         end).
  assert (∀ arcroles u seen,
            od_keys u = first_seen seen →
            (∀ p, children_of p (fold_left step arcroles u)
                  = children_of p u
                    ++ (arcroles ≫= λ arcrole,
                          children_of p (scope_hierarchy relationshipSet arcrole)))
            ∧ od_keys (fold_left step arcroles u)
              = first_seen
                  (seen ++ (arcroles ≫= λ arcrole,
                              od_keys (scope_hierarchy relationshipSet arcrole))))
    as Hloop.
  { induction arcroles as [|arcrole arcroles IH]; intros u seen Hu.
    - simpl. split; [intros p|]; by rewrite app_nil_r.
    - cbn [fold_left]. unfold step at 2 4. rewrite merge_step_scope.
      destruct (IH (merge_scope u (scope_hierarchy relationshipSet arcrole))
                   (seen ++ od_keys (scope_hierarchy relationshipSet arcrole)))
        as [Hc Hk].
      { by rewrite merge_scope_keys, Hu, fold_add_new_first_seen. }
      split.
      + intros p. rewrite Hc, merge_scope_children by apply scope_hierarchy_NoDup.
        by rewrite bind_cons, app_assoc.
      + by rewrite Hk, bind_cons, app_assoc. }
  destruct (Hloop dim_arcroles [] []) as [Hc Hk]; [done|].
  split; [|done]. intros p. by rewrite Hc.
Qed.

End TaxonomyExtras.

(** ** More about [dimension_parser.py] *)

Module DimensionExtras.
Import Arelle DimensionParser DimensionSpec DimensionEnds DimensionFacts.

Lemma edge_ends_snoc edges pn cn :
  edge_ends (edges ++ [(pn, cn)]) = (edge_ends edges ++ [pn]) ++ [cn].
Proof.
  unfold edge_ends. rewrite bind_app, bind_cons. cbn [mbind list_bind fst snd].
  by rewrite app_nil_r, <- app_assoc.
Qed.


(** *** Keys of the map *)

Lemma od_vivify_keys {V} (dflt : V) k (m : odict V) :
  od_keys (od_vivify dflt k m) = add_new k (od_keys m).
Proof.
  unfold od_vivify, add_new, od_keys. destruct (od_mem k m) eqn:Hmem.
  - apply od_mem_spec in Hmem. by rewrite decide_True.
  - pose proof (proj1 (od_mem_false _ _) Hmem) as Hn.
    rewrite decide_False by done. by rewrite fmap_app.
Qed.

Lemma od_set_keys_fresh {V} k (v : V) (m : odict V) :
  od_mem k m = false → od_keys (od_set k v m) = add_new k (od_keys m).
Proof.
  intros Hmem. pose proof (proj1 (od_mem_false _ _) Hmem) as Hn.
  unfold add_new, od_keys. rewrite decide_False by done.
  rewrite od_set_fresh by done. by rewrite fmap_app.
Qed.

Lemma node_children_add_child_eq c k k' m :
  k' ∈ od_keys m →
  entry_children (get_node_data (od_alter (add_child c) k' m) k)
  = if decide (k = k') then add_new c (entry_children (get_node_data m k))
    else entry_children (get_node_data m k).
Proof.
  intros Hk'. unfold get_node_data. destruct (decide (k = k')) as [->|Hne].
  - rewrite od_get_alter. apply od_get_is_Some in Hk' as [e ->]. simpl.
    unfold add_new. by destruct (decide (c ∈ entry_children e));
      [rewrite bool_decide_eq_true_2|rewrite bool_decide_eq_false_2].
  - by rewrite od_get_alter_ne.
Qed.

(** One relationship that gets its names: both names become keys, parent
    first, and the child joins the children of the parent if it is not
    among them. *)
Lemma record_edge_named elr m rel pn cn :
  named_edge elr rel = Some (pn, cn) →
  ∃ m', record_edge elr m rel = Returns m'
        ∧ od_keys m' = add_new cn (add_new pn (od_keys m))
        ∧ ∀ k, entry_children (get_node_data m' k)
               = if decide (k = pn) then add_new cn (entry_children (get_node_data m k))
                 else entry_children (get_node_data m k).
Proof.
  unfold record_edge, named_edge, hasattr_qname, qname_localName.
  destruct (fromModelObject rel) as [parent|], (toModelObject rel) as [child|]; try done.
  destruct (qname parent) as [| |qp], (qname child) as [| |qc]; simpl; try done.
  intros [= <- <-].
  set (pn := role_prefix elr +:+ localName qp). set (cn := localName qc).
  set (m1 := if od_mem pn m then m else _).
  set (m2 := if od_mem cn m1 then m1 else _).
  set (m3 := od_alter (set_parent pn) cn _).
  eexists. split; [done|].
  assert (od_keys m1 = add_new pn (od_keys m)
          ∧ ∀ k, entry_children (get_node_data m1 k) = entry_children (get_node_data m k))
    as [Hk1 Hc1].
  { subst m1. destruct (od_mem pn m) eqn:Hmem.
    - split; [|done]. symmetry. apply add_new_elem. by apply od_mem_spec.
    - split.
      + unfold od_keys at 1. rewrite od_alter_keys. apply od_vivify_keys.
      + intros k. by rewrite node_children_alter, node_children_vivify. }
  assert (od_keys m2 = add_new cn (od_keys m1)
          ∧ ∀ k, entry_children (get_node_data m2 k) = entry_children (get_node_data m k))
    as [Hk2 Hc2].
  { subst m2. destruct (od_mem cn m1) eqn:Hmem.
    - split; [|done]. symmetry. apply add_new_elem. by apply od_mem_spec.
    - split; [by apply od_set_keys_fresh|].
      intros k. by rewrite node_children_set_fresh. }
  assert (cn ∈ od_keys m2 ∧ pn ∈ od_keys m2) as [Hcn Hpn].
  { rewrite Hk2, Hk1. rewrite !elem_of_add_new. auto. }
  assert (od_keys m3 = od_keys m2
          ∧ ∀ k, entry_children (get_node_data m3 k) = entry_children (get_node_data m k))
    as [Hk3 Hc3].
  { subst m3. split.
    - unfold od_keys at 1. rewrite od_alter_keys.
      fold (od_keys (od_vivify default_entry cn m2)).
      rewrite od_vivify_keys. by apply add_new_elem.
    - intros k. by rewrite node_children_alter, node_children_vivify. }
  split.
  - unfold od_keys at 1. rewrite od_alter_keys.
    fold (od_keys (od_vivify default_entry pn m3)).
    rewrite od_vivify_keys, Hk3, add_new_elem by done.
    by rewrite Hk2, Hk1.
  - intros k. rewrite node_children_add_child_eq.
    + by rewrite node_children_vivify, Hc3.
    + rewrite od_vivify_keys, elem_of_add_new. auto.
Qed.

Lemma record_edge_unnamed elr m rel m' :
  named_edge elr rel = None → record_edge elr m rel = Returns m' → m' = m.
Proof.
  unfold record_edge, named_edge, hasattr_qname, qname_localName.
  destruct (fromModelObject rel) as [parent|], (toModelObject rel) as [child|];
    try (by intros _ [= <-]).
  destruct (qname parent) as [| |qp], (qname child) as [| |qc]; simpl;
    try done; by intros _ [= <-].
Qed.

Lemma named_edges_cons elr rel rels :
  named_edges elr (rel :: rels)
  = match named_edge elr rel with
    | Some e => e :: named_edges elr rels
    | None => named_edges elr rels
    end.
Proof. reflexivity. Qed.

Lemma for_each_record_edge_first_seen elr rels :
  ∀ edges m m',
    for_each (record_edge elr) rels m = Returns m' →
    od_keys m = first_seen (edge_ends edges) →
    (∀ k, entry_children (get_node_data m k) = first_seen (children_named k edges)) →
    od_keys m' = first_seen (edge_ends (edges ++ named_edges elr rels))
    ∧ ∀ k, entry_children (get_node_data m' k)
           = first_seen (children_named k (edges ++ named_edges elr rels)).
Proof.
  induction rels as [|rel rels IH]; intros edges m m' Hrun Hk Hc.
  { rewrite for_each_nil in Hrun. injection Hrun as <-.
    change (named_edges elr []) with (@nil (string * string)). by rewrite app_nil_r. }
  rewrite for_each_cons in Hrun. rewrite named_edges_cons.
  destruct (named_edge elr rel) as [[pn cn]|] eqn:Hrel.
  - destruct (record_edge_named elr m rel pn cn Hrel) as (m1 & Hm1 & Hk1 & Hc1).
    rewrite Hm1, bind_Returns in Hrun.
    rewrite (cons_middle (pn, cn)), app_assoc.
    apply (IH _ _ _ Hrun).
    + by rewrite edge_ends_snoc, !first_seen_snoc, Hk1, Hk.
    + intros k. rewrite Hc1, children_named_snoc.
      case_decide; [|done]. by rewrite first_seen_snoc, Hc.
  - destruct (record_edge elr m rel) as [m1| |] eqn:Hm1; try done.
    rewrite bind_Returns in Hrun.
    apply (record_edge_unnamed _ _ _ _ Hrel) in Hm1 as ->.
    by apply (IH _ _ _ Hrun).
Qed.

Lemma build_map_first_seen relationship_set elr pcm :
  build_map relationship_set elr = Returns pcm →
  od_keys pcm = first_seen (edge_ends (named_edges elr (default [] relationship_set)))
  ∧ ∀ k, entry_children (get_node_data pcm k)
         = first_seen (children_named k (named_edges elr (default [] relationship_set))).
Proof.
  intros Hmap.
  by apply (for_each_record_edge_first_seen elr _ [] [] pcm Hmap).
Qed.

(** X4. The map after the loop, read off the relationships that get their
    names: its keys are their parent and child names in order of first
    appearance, and the children of a key are the child names of the
    relationships it is the parent of, each once, in order of first
    appearance. *)
Theorem map_first_seen relationship_set elr pcm :
  build_map relationship_set elr = Returns pcm →
  od_keys pcm = first_seen (edge_ends (named_edges elr (default [] relationship_set)))
  ∧ ∀ k, entry_children (get_node_data pcm k)
         = first_seen (children_named k (named_edges elr (default [] relationship_set))).
Proof.
  intros Hmap.
  by apply (for_each_record_edge_first_seen elr _ [] [] pcm Hmap).
Qed.

(** The chain A→B, B→C under the Balance role. *)
Lemma map_first_seen_chain :
  od_keys [ ("[Balance] A", mkEntry false ["B"] None);
            ("B", mkEntry false [] (Some "[Balance] A"));
            ("[Balance] B", mkEntry false ["C"] None);
            ("C", mkEntry false [] (Some "[Balance] B")) ]
  = first_seen (edge_ends (named_edges Examples.balance_role Examples.chain_edges))
  ∧ ∀ k, entry_children
           (get_node_data
              [ ("[Balance] A", mkEntry false ["B"] None);
                ("B", mkEntry false [] (Some "[Balance] A"));
                ("[Balance] B", mkEntry false ["C"] None);
                ("C", mkEntry false [] (Some "[Balance] B")) ] k)
         = first_seen (children_named k
                         (named_edges Examples.balance_role Examples.chain_edges)).
Proof.
  apply (map_first_seen (Some Examples.chain_edges) Examples.balance_role).
  vm_compute. reflexivity.
Defined.

(** *** The trees, level by level *)






(** *** What the function ignores *)

(** X7. Records without an end, or with an end that has no [qname]
    attribute, have no effect: the outcome is that of the input without
    them, and a relationship set that is [None] or has no relationships
    gives the empty hierarchy. *)
Theorem dropped_records_have_no_effect arcrole rels elr :
  process_relationships arcrole (Some rels) elr
  = process_relationships arcrole (Some (filter (λ rel, dropped rel = false) rels)) elr
  ∧ process_relationships arcrole None elr = Returns []
  ∧ process_relationships arcrole (Some []) elr = Returns [].
Proof.
  split; [|split; vm_compute; reflexivity].
  unfold process_relationships. by rewrite build_map_drops.
Qed.

(** *** [update] in [parse_dimensions] *)

Lemma update_lookup (dimensions arcrole_hierarchy : odict Node) k :
  NoDup arcrole_hierarchy.*1 →
  od_get k (update dimensions arcrole_hierarchy)
  = match od_get k arcrole_hierarchy with
    | Some t => Some t
    | None => od_get k dimensions
    end.
Proof.
  unfold update. revert dimensions.
  induction arcrole_hierarchy as [|[k1 t1] h IH]; intros dimensions Hnd; [done|].
  rewrite fmap_cons in Hnd. apply NoDup_cons in Hnd as [Hk1 Hnd]. simpl in Hk1.
  cbn [fold_left od_get fst snd]. rewrite (IH _ Hnd), od_get_set.
  destruct (decide (k = k1)) as [->|Hne]; [|done].
  apply od_get_None in Hk1. by rewrite Hk1.
Qed.

Lemma od_set_keys_present {V} k (v : V) (m : odict V) :
  k ∈ od_keys m → od_keys (od_set k v m) = od_keys m.
Proof.
  unfold od_keys. induction m as [|[k0 v0] m IH]; intros Hin.
  - by apply elem_of_nil in Hin.
  - cbn [od_set]. destruct (decide (k = k0)) as [->|Hne]; [done|].
    rewrite !fmap_cons. f_equal. apply IH.
    rewrite fmap_cons in Hin. by apply elem_of_cons in Hin as [?|?].
Qed.

Lemma od_set_keys {V} k (v : V) (m : odict V) :
  od_keys (od_set k v m) = add_new k (od_keys m).
Proof.
  destruct (od_mem k m) eqn:Hmem; [|by apply od_set_keys_fresh].
  apply od_mem_spec in Hmem.
  by rewrite (add_new_elem _ _ Hmem), od_set_keys_present.
Qed.

Lemma update_keys (dimensions arcrole_hierarchy : odict Node) :
  od_keys (update dimensions arcrole_hierarchy)
  = fold_left (λ seen x, add_new x seen) (od_keys arcrole_hierarchy) (od_keys dimensions).
Proof.
  unfold update. revert dimensions.
  induction arcrole_hierarchy as [|[k1 t1] h IH]; intros dimensions; [done|].
  cbn [fold_left fst snd]. rewrite IH.
  change (od_keys ((k1, t1) :: h)) with (k1 :: od_keys h).
  cbn [fold_left]. by rewrite od_set_keys.
Qed.

(** X8. Merging a scope into the dimensions of [parse_dimensions]: a root
    the scope has gets the scope's tree, whatever was there before; every
    other root keeps its tree; and no root moves, new ones going last. *)
Theorem update_replaces_trees arcrole relationship_set elr h dimensions :
  process_relationships arcrole relationship_set elr = Returns h →
  (∀ k, od_get k (update dimensions h)
        = match od_get k h with
          | Some t => Some t
          | None => od_get k dimensions
          end)
  ∧ od_keys (update dimensions h)
    = fold_left (λ seen x, add_new x seen) (od_keys h) (od_keys dimensions).
Proof.
  intros Hh. split; [|apply update_keys].
  intros k. apply update_lookup.
  unfold process_relationships in Hh.
  destruct (build_map relationship_set elr) as [pcm| |] eqn:Hmap; try done.
  rewrite bind_Returns in Hh.
  destruct (build_forest_spec pcm) as (h' & Hh' & Hkeys & _).
  rewrite Hh in Hh'. injection Hh' as <-. rewrite Hkeys. apply NoDup_elements.
Qed.

(** The scope that puts X under P, merged into dimensions that hold Y
    under P and Z under Q. *)
Lemma update_replaces_trees_example :
  (∀ k, od_get k (update
                    [("[Balance] P", mkNode "[Balance] P" false [mkNode "Y" false []]);
                     ("[Balance] Q", mkNode "[Balance] Q" false [mkNode "Z" false []])]
                    [("[Balance] P", mkNode "[Balance] P" false [mkNode "X" false []])])
        = match od_get k [("[Balance] P",
                           mkNode "[Balance] P" false [mkNode "X" false []])] with
          | Some t => Some t
          | None =>
              od_get k
                [("[Balance] P", mkNode "[Balance] P" false [mkNode "Y" false []]);
                 ("[Balance] Q", mkNode "[Balance] Q" false [mkNode "Z" false []])]
          end)
  ∧ od_keys (update
               [("[Balance] P", mkNode "[Balance] P" false [mkNode "Y" false []]);
                ("[Balance] Q", mkNode "[Balance] Q" false [mkNode "Z" false []])]
               [("[Balance] P", mkNode "[Balance] P" false [mkNode "X" false []])])
    = fold_left (λ seen x, add_new x seen)
        (od_keys [("[Balance] P", mkNode "[Balance] P" false [mkNode "X" false []])])
        (od_keys
           [("[Balance] P", mkNode "[Balance] P" false [mkNode "Y" false []]);
            ("[Balance] Q", mkNode "[Balance] Q" false [mkNode "Z" false []])]).
Proof.
  apply (update_replaces_trees Examples.parent_child (Some [Examples.arc "P" "X"])
           Examples.balance_role).
  vm_compute. reflexivity.
Defined.

Lemma elem_of_update kv (dimensions arcrole_hierarchy : odict Node) :
  kv ∈ update dimensions arcrole_hierarchy → kv ∈ dimensions ∨ kv ∈ arcrole_hierarchy.
Proof.
  unfold update. revert dimensions.
  induction arcrole_hierarchy as [|[k1 t1] h IH]; intros dimensions; [by left|].
  cbn [fold_left fst snd]. intros [Hin|Hin]%IH.
  - apply elem_of_od_set in Hin as [?| ->]; [by left|]. right. left.
  - right. by right.
Qed.

(** X9. [parse_dimensions] never mixes scopes: every tree in what it
    returns is, whole and under its own root name, a tree that
    [process_relationships] returned for one dimensional arc-role and one
    of its link roles. *)
Theorem parse_dimensions_keeps_whole_trees model_xbrl dimensions :
  parse_dimensions model_xbrl = Returns dimensions →
  ∀ root t, (root, t) ∈ dimensions →
    ∃ arcrole elr h,
      arcrole ∈ dim_arcroles ∧ elr ∈ linkRoleUris model_xbrl arcrole
      ∧ process_relationships arcrole (relationshipSet_in model_xbrl arcrole elr) elr
        = Returns h
      ∧ (root, t) ∈ h.
Proof.
  unfold parse_dimensions.
  set (Q := λ (arcroles : list string) (kv : string * Node),
         ∃ arcrole elr h,
           arcrole ∈ arcroles ∧ elr ∈ linkRoleUris model_xbrl arcrole
           ∧ process_relationships arcrole (relationshipSet_in model_xbrl arcrole elr) elr
             = Returns h
           ∧ kv ∈ h).
  set (inner := λ (arcrole : string) (dimensions : odict Node) (elr : string),
         process_relationships arcrole (relationshipSet_in model_xbrl arcrole elr) elr
         ≫= λ arcrole_hierarchy, Returns (update dimensions arcrole_hierarchy)).
  assert (∀ arcrole elrs seen d d' (R : string * Node → Prop),
            linkRoleUris model_xbrl arcrole = seen ++ elrs →
            for_each (inner arcrole) elrs d = Returns d' →
            (∀ kv, kv ∈ d → R kv) →
            (∀ elr h kv,
               elr ∈ linkRoleUris model_xbrl arcrole →
               process_relationships arcrole (relationshipSet_in model_xbrl arcrole elr) elr
               = Returns h → kv ∈ h → R kv) →
            ∀ kv, kv ∈ d' → R kv) as Hinner.
  { intros arcrole elrs. induction elrs as [|elr elrs IH]; intros seen d d' R Hsplit.
    - rewrite for_each_nil. intros [= <-]. auto.
    - rewrite for_each_cons.
      change (inner arcrole d elr)
        with (process_relationships arcrole
                (relationshipSet_in model_xbrl arcrole elr) elr
              ≫= λ arcrole_hierarchy, Returns (update d arcrole_hierarchy)).
      destruct (process_relationships arcrole
                  (relationshipSet_in model_xbrl arcrole elr) elr) as [h| |] eqn:Hh;
        try done.
      rewrite !bind_Returns. intros Hrest Hd Hscope.
      apply (IH (seen ++ [elr]) (update d h) d' R); [by rewrite <- app_assoc|done| |done].
      intros kv [Hin|Hin]%elem_of_update; [auto|].
      apply (Hscope elr h); [|done|done]. rewrite Hsplit. set_solver. }
  assert (∀ arcroles seen d d',
            dim_arcroles = seen ++ arcroles →
            for_each
              (λ dimensions arcrole,
                 match relationshipSet model_xbrl arcrole with
                 | Some (_ :: _) =>
                     for_each (inner arcrole) (linkRoleUris model_xbrl arcrole) dimensions
                 | _ => Returns dimensions
                 end) arcroles d = Returns d' →
            (∀ kv, kv ∈ d → Q dim_arcroles kv) →
            ∀ kv, kv ∈ d' → Q dim_arcroles kv) as Houter.
  { induction arcroles as [|arcrole arcroles IH]; intros seen d d' Hsplit.
    - rewrite for_each_nil. intros [= <-]. auto.
    - rewrite for_each_cons. intros Hrun Hd.
      destruct (relationshipSet model_xbrl arcrole) as [[|rel rels]|].
      + rewrite bind_Returns in Hrun.
        apply (IH (seen ++ [arcrole]) d d'); [by rewrite <- app_assoc|done|done].
      + destruct (for_each (inner arcrole) (linkRoleUris model_xbrl arcrole) d)
          as [d1| |] eqn:Hd1; try done.
        rewrite bind_Returns in Hrun.
        apply (IH (seen ++ [arcrole]) d1 d' ltac:(by rewrite <- app_assoc) Hrun).
        apply (Hinner arcrole _ [] d d1 (Q dim_arcroles) eq_refl Hd1 Hd).
        intros elr h kv Helr Hh Hkv. exists arcrole, elr, h.
        split; [|done]. rewrite Hsplit. set_solver.
      + rewrite bind_Returns in Hrun.
        apply (IH (seen ++ [arcrole]) d d'); [by rewrite <- app_assoc|done|done]. }
  intros Hrun root t Hin.
  apply (Houter dim_arcroles [] [] dimensions eq_refl Hrun); [|done].
  by intros kv ?%elem_of_nil.
Qed.

(** The two scopes that both have the parent P: the tree that stands. *)
Lemma parse_dimensions_keeps_whole_trees_two_scopes :
  ∃ arcrole elr h,
    arcrole ∈ dim_arcroles ∧ elr ∈ linkRoleUris Examples.two_scopes_model arcrole
    ∧ process_relationships arcrole
        (relationshipSet_in Examples.two_scopes_model arcrole elr) elr
      = Returns h
    ∧ ("[Balance] P", mkNode "[Balance] P" false [mkNode "X" false []; mkNode "Y" false []]) ∈ h.
Proof.
  apply (parse_dimensions_keeps_whole_trees Examples.two_scopes_model
           [("[Balance] P", mkNode "[Balance] P" false [mkNode "X" false []; mkNode "Y" false []])]).
  - vm_compute. reflexivity.
  - left.
Defined.

(** *** The loops of [parse_dimensions] *)

Lemma for_each_app {A S : Type} (body : S → A → outcome S) xs ys s :
  for_each body (xs ++ ys) s = for_each body xs s ≫= for_each body ys.
Proof.
  revert s. induction xs as [|x xs IH]; intros s; [done|].
  rewrite <- app_comm_cons, !for_each_cons.
  destruct (body s x) as [s1| |]; [|done|done].
  rewrite !bind_Returns. apply IH.
Qed.

Lemma for_each_fmap {A B S : Type} (body : S → B → outcome S) (g : A → B) xs s :
  for_each body (g <$> xs) s = for_each (λ s x, body s (g x)) xs s.
Proof.
  revert s. induction xs as [|x xs IH]; intros s; [done|].
  rewrite fmap_cons, !for_each_cons.
  destruct (body s (g x)) as [s1| |]; [|done|done].
  rewrite !bind_Returns. apply IH.
Qed.

Lemma NoDup_fold_add_new {A} `{EqDecision A} (l seen : list A) :
  NoDup seen → NoDup (fold_left (λ seen x, add_new x seen) l seen).
Proof.
  revert seen. induction l as [|x l IH]; intros seen Hseen; [done|].
  simpl. by apply IH, NoDup_add_new.
Qed.

Lemma not_Exists_null_qname rels :
  ¬ Exists (λ rel, null_qname rel = true) rels
  ↔ Forall (λ rel, null_qname rel = false) rels.
Proof.
  rewrite <- Forall_Exists_neg. apply Forall_proper; [|done].
  intros rel. by destruct (null_qname rel).
Qed.

(** The two nested loops are one loop over the scopes. *)
Lemma parse_dimensions_flat model_xbrl :
  parse_dimensions model_xbrl
  = for_each
      (λ dimensions scope,
         arcrole_hierarchy ←
           process_relationships scope.1
             (relationshipSet_in model_xbrl scope.1 scope.2) scope.2;
         Returns (update dimensions arcrole_hierarchy))
      (visited_scopes model_xbrl) [].
Proof.
  unfold parse_dimensions, visited_scopes.
  generalize (@nil (string * Node)). generalize dim_arcroles.
  induction l as [|arcrole arcroles IH]; intros d; [done|].
  rewrite for_each_cons, bind_cons, for_each_app.
  destruct (relationshipSet model_xbrl arcrole) as [[|rel rels]|].
  - rewrite for_each_nil, !bind_Returns. apply IH.
  - rewrite for_each_fmap.
    match goal with
    | |- ?a ≫= _ = ?b ≫= _ => change b with a; destruct a as [d1| |]; [|done|done]
    end.
    rewrite !bind_Returns. apply IH.
  - rewrite for_each_nil, !bind_Returns. apply IH.
Qed.

(** *** The recursion limit *)

Section limit_facts.
Variable pcm : odict entry.

Lemma build_children_transfer
    (rec1 rec2 : string → gset string → outcome (option Node * gset string)) :
  (∀ cn V r, rec1 cn V = Returns r → rec2 cn V = Returns r) →
  ∀ names built V r,
    build_children pcm rec1 names built V = Returns r →
    build_children pcm rec2 names built V = Returns r.
Proof.
  intros Hrec names. induction names as [|cn names IH]; intros built V r; [done|].
  simpl. destruct (od_mem cn pcm); [|apply IH].
  destruct (rec1 cn V) as [[c V1]| |] eqn:H1; [|done|done].
  rewrite (Hrec _ _ _ H1). simpl. apply IH.
Qed.

Lemma build_hierarchy_S fuel node V :
  build_hierarchy pcm (S fuel) node V
  = if decide (node ∈ V) then Returns (None, V)
    else '(built, visited) ←
           build_children pcm (build_hierarchy pcm fuel)
             (entry_children (get_node_data pcm node)) [] (V ∪ {[node]});
         Returns (Some (mkNode node (entry_abstract (get_node_data pcm node)) built),
                  visited ∖ {[node]}).
Proof. reflexivity. Qed.

Lemma build_hierarchy_within_S frames node V :
  build_hierarchy_within pcm (S frames) node V
  = if decide (node ∈ V) then Returns (None, V)
    else '(built, visited) ←
           build_children pcm (build_hierarchy_within pcm frames)
             (entry_children (get_node_data pcm node)) [] (V ∪ {[node]});
         Returns (Some (mkNode node (entry_abstract (get_node_data pcm node)) built),
                  visited ∖ {[node]}).
Proof. reflexivity. Qed.

(** What returns under the limit returns the same on a stack without
    bound. *)
Lemma within_unbounded frames :
  ∀ node V r,
    build_hierarchy_within pcm frames node V = Returns r →
    build_hierarchy pcm frames node V = Returns r.
Proof.
  induction frames as [|frames IH]; intros node V r; [done|].
  rewrite build_hierarchy_S, build_hierarchy_within_S.
  destruct (decide (node ∈ V)); [done|].
  destruct (build_children pcm (build_hierarchy_within pcm frames) _ _ _)
    as [[built V1]| |] eqn:Hc; [|done|done].
  by rewrite (build_children_transfer _ _ IH _ _ _ _ Hc).
Qed.

(** One frame more than the depth of the descent is enough: the extra
    one is for the calls that find their node on the path. *)
Lemma unbounded_within fuel :
  ∀ node V r,
    build_hierarchy pcm fuel node V = Returns r →
    build_hierarchy_within pcm (S fuel) node V = Returns r.
Proof.
  induction fuel as [|fuel IH]; intros node V r.
  - rewrite build_hierarchy_within_S. simpl. by destruct (decide (node ∈ V)).
  - rewrite build_hierarchy_S, (build_hierarchy_within_S (S fuel)).
    destruct (decide (node ∈ V)); [done|].
    destruct (build_children pcm (build_hierarchy pcm fuel) _ _ _)
      as [[built V1]| |] eqn:Hc; [|done|done].
    by rewrite (build_children_transfer _ _ IH _ _ _ _ Hc).
Qed.

Lemma build_hierarchy_mono fuel fuel' node V r :
  fuel ≤ fuel' →
  build_hierarchy pcm fuel node V = Returns r →
  build_hierarchy pcm fuel' node V = Returns r.
Proof.
  induction 1 as [|fuel' _ IH]; [done|].
  intros Hr. by apply within_unbounded, unbounded_within, IH.
Qed.

Lemma build_hierarchy_within_mono frames frames' node V r :
  frames ≤ frames' →
  build_hierarchy_within pcm frames node V = Returns r →
  build_hierarchy_within pcm frames' node V = Returns r.
Proof.
  induction 1 as [|frames' _ IH]; [done|].
  intros Hr. by apply unbounded_within, within_unbounded, IH.
Qed.

Lemma returns_or_overflows_bind {A B} (o : outcome A) (f : A → outcome B) :
  returns_or_overflows o → (∀ a, o = Returns a → returns_or_overflows (f a)) →
  returns_or_overflows (o ≫= f).
Proof. destruct o as [a| |]; [|done|done]. intros _ Hf. by apply Hf. Qed.

Lemma for_each_returns_or_overflows {A S} (body : S → A → outcome S)
    (I : S → Prop) xs :
  (∀ s x, x ∈ xs → I s → returns_or_overflows (body s x)) →
  (∀ s x s', x ∈ xs → I s → body s x = Returns s' → I s') →
  ∀ s, I s → returns_or_overflows (for_each body xs s).
Proof.
  induction xs as [|x xs IH]; intros Hbody Hinv s Hs; [done|].
  rewrite for_each_cons. apply returns_or_overflows_bind.
  - apply Hbody; [left|done].
  - intros s1 Hs1. apply IH.
    + intros s2 y Hy. apply Hbody. by right.
    + intros s2 y s3 Hy. apply Hinv. by right.
    + apply (Hinv s x); [left|done|done].
Qed.

Lemma for_each_invariant {A S} (body : S → A → outcome S) (I : S → Prop) xs :
  (∀ s x s', x ∈ xs → I s → body s x = Returns s' → I s') →
  ∀ s s', I s → for_each body xs s = Returns s' → I s'.
Proof.
  induction xs as [|x xs IH]; intros Hinv s s' Hs.
  { rewrite for_each_nil. by intros [= <-]. }
  rewrite for_each_cons. destruct (body s x) as [s1| |] eqn:Hs1; [|done|done].
  rewrite bind_Returns. apply IH.
  - intros s2 y s3 Hy. apply Hinv. by right.
  - apply (Hinv s x); [left|done|done].
Qed.

Lemma for_each_transfer {A S} (body1 body2 : S → A → outcome S) xs :
  (∀ s x s', x ∈ xs → body1 s x = Returns s' → body2 s x = Returns s') →
  ∀ s s', for_each body1 xs s = Returns s' → for_each body2 xs s = Returns s'.
Proof.
  induction xs as [|x xs IH]; intros Hbody s s'; [done|].
  rewrite !for_each_cons. destruct (body1 s x) as [s1| |] eqn:Hs1; [|done|done].
  rewrite (Hbody _ _ _ ltac:(left) Hs1), !bind_Returns. apply IH.
  intros s2 y s3 Hy. apply Hbody. by right.
Qed.

Lemma build_children_returns_or_overflows
    (recurse : string → gset string → outcome (option Node * gset string)) :
  (∀ cn V, returns_or_overflows (recurse cn V)) →
  ∀ names built V, returns_or_overflows (build_children pcm recurse names built V).
Proof.
  intros Hrec names. induction names as [|cn names IH]; intros built V; [done|].
  simpl. destruct (od_mem cn pcm); [|apply IH].
  apply returns_or_overflows_bind; [apply Hrec|].
  intros [c V1] _. apply IH.
Qed.

(** Under the limit the builder returns or raises [RecursionError]. *)
Lemma build_hierarchy_within_outcome frames :
  ∀ node V, returns_or_overflows (build_hierarchy_within pcm frames node V).
Proof.
  induction frames as [|frames IH]; intros node V; [done|].
  rewrite build_hierarchy_within_S. destruct (decide (node ∈ V)); [done|].
  apply returns_or_overflows_bind.
  - by apply build_children_returns_or_overflows.
  - by intros [built V1] _.
Qed.

Lemma build_children_height
    (recurse : string → gset string → outcome (option Node * gset string)) bound :
  (∀ cn V c V', recurse cn V = Returns (Some c, V') → height c ≤ bound) →
  ∀ names built V built' V',
    Forall (λ c, height c ≤ bound) built →
    build_children pcm recurse names built V = Returns (built', V') →
    Forall (λ c, height c ≤ bound) built'.
Proof.
  intros Hrec names. induction names as [|cn names IH]; intros built V built' V' Hb.
  { simpl. by intros [= <- <-]. }
  simpl. destruct (od_mem cn pcm); [|by apply IH].
  destruct (recurse cn V) as [[[c|] V1]| |] eqn:Hc; [| |done|done]; simpl.
  - apply IH. apply Forall_app. split; [done|].
    apply Forall_singleton. by apply (Hrec _ _ _ _ Hc).
  - by apply IH.
Qed.

(** A tree built within [frames] frames has at most [frames] levels. *)
Lemma build_hierarchy_within_height frames :
  ∀ node V t V',
    build_hierarchy_within pcm frames node V = Returns (Some t, V') →
    height t ≤ frames.
Proof.
  induction frames as [|frames IH]; intros node V t V'; [done|].
  rewrite build_hierarchy_within_S. destruct (decide (node ∈ V)); [done|].
  destruct (build_children pcm (build_hierarchy_within pcm frames) _ _ _)
    as [[built V1]| |] eqn:Hc; [|done|done].
  rewrite bind_Returns. intros [= <- _].
  rewrite height_eq. simpl. apply le_n_S, max_list_le_bound, Forall_fmap.
  by apply (build_children_height _ _ IH _ _ _ _ _ (Forall_nil_2 _) Hc).
Qed.

Lemma build_hierarchy_within_Some frames node V st V' :
  node ∉ V → build_hierarchy_within pcm frames node V = Returns (st, V') →
  ∃ t, st = Some t.
Proof.
  intros Hnode. destruct frames as [|frames]; [done|].
  rewrite build_hierarchy_within_S, decide_False by done.
  destruct (build_children pcm _ _ _ _) as [[built V1]| |]; [|done|done].
  rewrite bind_Returns. intros [= <- _]. eauto.
Qed.

(** [print_hierarchy] gets through a tree that is no higher than the
    frames left. *)
Lemma print_hierarchy_within_returns frames :
  ∀ t, height t ≤ frames → print_hierarchy_within frames t = Returns ().
Proof.
  induction frames as [|frames IH]; intros t; rewrite height_eq; [lia|].
  intros Hh. simpl.
  assert (Forall (λ c, height c ≤ frames) (children t)) as Hall.
  { apply Forall_forall. intros c Hc.
    assert (height c ≤ max_list (height <$> children t)); [|lia].
    apply max_list_elem_of_le, list_elem_of_fmap. eauto. }
  clear Hh. revert Hall. generalize (children t). intros cs Hall.
  induction Hall as [|c cs Hc _ IHcs]; [done|].
  rewrite for_each_cons, (IH c Hc), bind_Returns. apply IHcs.
Qed.

(** The tree of a root: the same, whatever the frames, when there is
    one. *)
Lemma build_root_within_unbounded frames hierarchy root hierarchy' :
  root ∈ all_parents pcm →
  build_root_within pcm frames hierarchy root = Returns hierarchy' →
  build_root pcm hierarchy root = Returns hierarchy'
  ∧ ∃ t, hierarchy' = od_set root (Some t) hierarchy ∧ height t ≤ frames.
Proof.
  intros Hroot. unfold build_root_within, build_root.
  destruct (build_hierarchy_within pcm frames root ∅) as [[st V']| |] eqn:Hw;
    [|done|done].
  rewrite bind_Returns. intros [= <-].
  destruct (build_hierarchy_within_Some _ _ _ _ _ (not_elem_of_empty root) Hw) as [t ->].
  destruct (build_hierarchy_rule pcm (λ _ _ _, True) ltac:(done)
              (enough_fuel pcm) root ∅) as (t0 & Ht0 & _);
    [done|set_solver|set_solver|unfold enough_fuel; rewrite size_empty; lia|].
  pose proof (within_unbounded _ _ _ _ Hw) as Hu.
  apply (build_hierarchy_mono _ (frames `max` enough_fuel pcm)) in Hu; [|lia].
  apply (build_hierarchy_mono _ (frames `max` enough_fuel pcm)) in Ht0 as Ht0'; [|lia].
  rewrite Hu in Ht0'. injection Ht0' as Ht HV. subst t0.
  rewrite Ht0, bind_Returns. split; [done|].
  exists t. split; [done|]. by apply (build_hierarchy_within_height _ _ _ _ _ Hw).
Qed.

Lemma build_root_within_enough frames hierarchy root :
  root ∈ all_parents pcm → S (enough_fuel pcm) ≤ frames →
  build_root_within pcm frames hierarchy root = build_root pcm hierarchy root.
Proof.
  intros Hroot Hframes. unfold build_root_within, build_root.
  destruct (build_hierarchy_rule pcm (λ _ _ _, True) ltac:(done)
              (enough_fuel pcm) root ∅) as (t0 & Ht0 & _);
    [done|set_solver|set_solver|unfold enough_fuel; rewrite size_empty; lia|].
  rewrite Ht0.
  by rewrite (build_hierarchy_within_mono _ _ _ _ _ Hframes (unbounded_within _ _ _ _ Ht0)).
Qed.

Lemma for_each_ext_in {A S} (body1 body2 : S → A → outcome S) xs :
  (∀ s x, x ∈ xs → body1 s x = body2 s x) →
  ∀ s, for_each body1 xs s = for_each body2 xs s.
Proof.
  induction xs as [|x xs IH]; intros Hbody s; [done|].
  rewrite !for_each_cons, (Hbody s x) by left.
  destruct (body2 s x) as [s1| |]; [|done|done].
  rewrite !bind_Returns. apply IH. intros s2 y Hy. apply Hbody. by right.
Qed.

Lemma build_roots_within_trees frames roots hierarchy :
  (∀ root, root ∈ roots → root ∈ all_parents pcm) →
  for_each (build_root_within pcm frames) roots [] = Returns hierarchy →
  trees_within frames hierarchy.
Proof.
  intros Hroots. apply for_each_invariant; [|by intros k st ?%elem_of_nil].
  intros hier root hier' Hroot Hhier Hrun.
  destruct (build_root_within_unbounded _ _ _ _ (Hroots _ Hroot) Hrun)
    as (_ & t & -> & Ht).
  intros k st [Hin|[= -> ->]]%elem_of_od_set; [by apply (Hhier k st)|eauto].
Qed.

Lemma walk_within_unbounded frames hierarchy :
  trees_within frames hierarchy →
  ∀ walked,
    for_each (walk_root_within frames) hierarchy walked
    = for_each walk_root hierarchy walked
    ∧ ∃ h, for_each walk_root hierarchy walked = Returns h.
Proof.
  induction hierarchy as [|[k st] hier IH]; intros Htrees walked.
  { split; [done|]. by exists walked. }
  destruct (Htrees k st) as (t & -> & Ht); [left|].
  rewrite !for_each_cons, walk_root_eq, bind_Returns.
  assert (walk_root_within frames walked (k, Some t) = Returns (walked ++ [(k, t)]))
    as ->.
  { unfold walk_root_within. destruct frames as [|frames].
    { rewrite height_eq in Ht. lia. }
    cbn [snd fst]. by rewrite (print_hierarchy_within_returns _ _ Ht). }
  rewrite bind_Returns. apply IH. intros k' st' Hin. apply (Htrees k' st'). by right.
Qed.

Lemma walk_root_elems hierarchy :
  ∀ walked h,
    for_each walk_root hierarchy walked = Returns h →
    ∀ root t, (root, t) ∈ h → (root, t) ∈ walked ∨ (root, Some t) ∈ hierarchy.
Proof.
  induction hierarchy as [|[k st] hier IH]; intros walked h.
  { rewrite for_each_nil. intros [= <-]. auto. }
  rewrite for_each_cons. destruct st as [t0|]; [|done].
  rewrite walk_root_eq, bind_Returns. intros Hrun root t Hin.
  destruct (IH _ _ Hrun _ _ Hin) as [[?|[= -> ->]%list_elem_of_singleton]%elem_of_app|?].
  - by left.
  - right. left.
  - right. by right.
Qed.

(** The forest under the limit: it returns or raises [RecursionError];
    what it returns is what the forest without limit returns, and has no
    tree higher than the frames; and with two frames more than the map
    has keys it returns. *)
Lemma build_forest_within_spec frames :
  returns_or_overflows (build_forest_within pcm frames)
  ∧ (∀ h, build_forest_within pcm frames = Returns h →
          build_forest pcm = Returns h
          ∧ ∀ root t, (root, t) ∈ h → height t ≤ frames)
  ∧ (S (enough_fuel pcm) ≤ frames → build_forest_within pcm frames = build_forest pcm).
Proof.
  assert (∀ root, root ∈ elements (root_nodes pcm) → root ∈ all_parents pcm) as Hroots.
  { intros root Hroot%elem_of_elements. by apply root_nodes_subseteq. }
  unfold build_forest_within, build_forest. split; [|split].
  - apply returns_or_overflows_bind.
    + apply (for_each_returns_or_overflows _ (λ _, True)); [|done|done].
      intros hier root _ _. unfold build_root_within.
      apply returns_or_overflows_bind; [apply build_hierarchy_within_outcome|].
      by intros [st V] _.
    + intros hier Hhier.
      destruct (walk_within_unbounded frames hier
                  (build_roots_within_trees _ _ _ Hroots Hhier) []) as (-> & h & ->).
      done.
  - intros h.
    destruct (for_each (build_root_within pcm frames) (elements (root_nodes pcm)) [])
      as [hier| |] eqn:Hhier; [|done|done].
    pose proof (build_roots_within_trees _ _ _ Hroots Hhier) as Htrees.
    rewrite (for_each_transfer (build_root_within pcm frames) (build_root pcm)
               _ ltac:(intros ? root ? Hroot Hrun;
                       apply (build_root_within_unbounded _ _ _ _ (Hroots _ Hroot) Hrun))
               _ _ Hhier).
    rewrite !bind_Returns.
    destruct (walk_within_unbounded frames hier Htrees []) as (-> & _).
    intros Hh. split; [done|]. intros root t Hin.
    destruct (walk_root_elems _ _ _ Hh _ _ Hin) as [?%elem_of_nil|Hhier']; [done|].
    destruct (Htrees _ _ Hhier') as (t' & [= <-] & Ht). done.
  - intros Hframes.
    rewrite (for_each_ext_in (build_root_within pcm frames) (build_root pcm) _
               ltac:(intros ? root Hroot;
                     apply (build_root_within_enough _ _ _ (Hroots _ Hroot) Hframes))).
    destruct (for_each (build_root pcm) (elements (root_nodes pcm)) [])
      as [hier| |] eqn:Hhier; [|done|done].
    rewrite !bind_Returns.
    assert (for_each (build_root_within pcm frames) (elements (root_nodes pcm)) []
            = Returns hier) as Hwithin.
    { rewrite <- Hhier. apply for_each_ext_in. intros ? root Hroot.
      apply (build_root_within_enough _ _ _ (Hroots _ Hroot) Hframes). }
    by destruct (walk_within_unbounded frames hier
                   (build_roots_within_trees _ _ _ Hroots Hwithin) []) as (-> & _).
Qed.
End limit_facts.

Lemma build_map_default relationship_set elr :
  build_map relationship_set elr = build_map (Some (default [] relationship_set)) elr.
Proof. by destruct relationship_set. Qed.

(** The call as a whole, for a relationship set of any kind. *)
Lemma process_relationships_within_spec spare arcrole relationship_set elr :
  (Exists (λ rel, null_qname rel = true) (default [] relationship_set) →
   process_relationships_within spare arcrole relationship_set elr = Raises AttributeError
   ∧ process_relationships arcrole relationship_set elr = Raises AttributeError)
  ∧ (Forall (λ rel, null_qname rel = false) (default [] relationship_set) →
     returns_or_overflows (process_relationships_within spare arcrole relationship_set elr)
     ∧ (∀ h, process_relationships_within spare arcrole relationship_set elr = Returns h →
             process_relationships arcrole relationship_set elr = Returns h
             ∧ ∀ root t, (root, t) ∈ h → height t ≤ S spare)
     ∧ (length (first_seen (edge_ends (named_edges elr (default [] relationship_set))))
        < spare →
        ∃ h, process_relationships_within spare arcrole relationship_set elr = Returns h)).
Proof.
  unfold process_relationships_within, process_relationships. split.
  - intros Hex. by rewrite build_map_default, (build_map_raises _ elr Hex).
  - intros Hall.
    destruct (build_map_returns _ elr Hall) as (pcm & Hmap).
    rewrite <- build_map_default in Hmap. rewrite Hmap, !bind_Returns.
    destruct (build_forest_within_spec pcm (S spare)) as (Hout & Hsame & Henough).
    split; [done|]. split; [done|]. intros Hlen.
    destruct (build_forest_spec pcm) as (h & Hh & _).
    exists h. rewrite Henough; [done|].
    unfold enough_fuel, all_parents.
    destruct (build_map_first_seen _ _ _ Hmap) as [-> _].
    rewrite size_list_to_set by apply NoDup_first_seen. lia.
Qed.

Lemma process_relationships_within_returns spare arcrole relationship_set elr h :
  process_relationships_within spare arcrole relationship_set elr = Returns h →
  process_relationships arcrole relationship_set elr = Returns h
  ∧ NoDup (od_keys h)
  ∧ ∀ root t, (root, t) ∈ h → height t ≤ S spare.
Proof.
  intros Hh.
  destruct (process_relationships_within_spec spare arcrole relationship_set elr)
    as [Hraise Hreturn].
  destruct (decide (Exists (λ rel, null_qname rel = true) (default [] relationship_set)))
    as [Hex|Hall%not_Exists_null_qname].
  { destruct (Hraise Hex) as [Hr _]. congruence. }
  destruct (Hreturn Hall) as (_ & Hsame & _).
  destruct (Hsame h Hh) as [Hu Hheight]. split; [done|]. split; [|done].
  unfold process_relationships in Hu.
  destruct (build_map relationship_set elr) as [pcm| |]; [|done|done].
  rewrite bind_Returns in Hu.
  destruct (build_forest_spec pcm) as (h' & Hh' & Hkeys & _).
  rewrite Hu in Hh'. injection Hh' as <-.
  unfold od_keys. rewrite Hkeys. apply NoDup_elements.
Qed.


(** *** [parse_dimensions] under the recursion limit *)

(** A loop whose turns fail or not whatever the state. *)
Lemma for_each_run {A H S} (run : A → outcome H) (step : S → H → S) xs :
  ∀ s,
    match for_each (λ s x, run x ≫= λ h, Returns (step s h)) xs s with
    | Returns _ => Forall (λ x, ∃ h, run x = Returns h) xs
    | Raises e =>
        ∃ before x after,
          xs = before ++ x :: after
          ∧ Forall (λ x, ∃ h, run x = Returns h) before ∧ run x = Raises e
    | OutOfFuel => ∃ x, x ∈ xs ∧ run x = OutOfFuel
    end.
Proof.
  induction xs as [|x xs IH]; intros s; [by rewrite for_each_nil|].
  rewrite for_each_cons. destruct (run x) as [h|e|] eqn:Hx.
  - rewrite !bind_Returns. specialize (IH (step s h)).
    destruct (for_each _ xs (step s h)) as [s'|e|].
    + apply Forall_cons. eauto.
    + destruct IH as (before & y & after & -> & Hbefore & Hy).
      exists (x :: before), y, after. split; [done|]. split; [|done].
      apply Forall_cons. eauto.
    + destruct IH as (y & Hy & Hrun). exists y. split; [by right|done].
  - exists [], x, xs. by split; [|split].
  - exists x. split; [left|done].
Qed.

Lemma for_each_run_returns {A H S} (run : A → outcome H) (step : S → H → S) xs :
  Forall (λ x, ∃ h, run x = Returns h) xs →
  ∀ s, ∃ s', for_each (λ s x, run x ≫= λ h, Returns (step s h)) xs s = Returns s'.
Proof.
  induction 1 as [|x xs [h Hx] _ IH]; intros s; [by exists s|].
  rewrite for_each_cons, Hx, !bind_Returns. apply IH.
Qed.

Lemma for_each_run_raises {A H S} (run : A → outcome H) (step : S → H → S)
    before x after e :
  Forall (λ x, ∃ h, run x = Returns h) before → run x = Raises e →
  ∀ s, for_each (λ s x, run x ≫= λ h, Returns (step s h)) (before ++ x :: after) s
       = Raises e.
Proof.
  intros Hbefore Hx. induction Hbefore as [|y before [h Hy] _ IH]; intros s.
  - simpl. by rewrite Hx.
  - rewrite <- app_comm_cons, for_each_cons, Hy, !bind_Returns. apply IH.
Qed.

Lemma parse_dimensions_within_flat spare model_xbrl :
  parse_dimensions_within spare model_xbrl
  = for_each
      (λ dimensions scope,
         scope_outcome spare model_xbrl scope
         ≫= λ arcrole_hierarchy, Returns (update dimensions arcrole_hierarchy))
      (visited_scopes model_xbrl) [].
Proof.
  unfold parse_dimensions_within, visited_scopes, scope_outcome.
  generalize (@nil (string * Node)). generalize dim_arcroles.
  induction l as [|arcrole arcroles IH]; intros d; [done|].
  rewrite for_each_cons, bind_cons, for_each_app.
  destruct (relationshipSet model_xbrl arcrole) as [[|rel rels]|].
  - rewrite for_each_nil, !bind_Returns. apply IH.
  - rewrite for_each_fmap.
    match goal with
    | |- ?a ≫= _ = ?b ≫= _ => change b with a; destruct a as [d1| |]; [|done|done]
    end.
    rewrite !bind_Returns. apply IH.
  - rewrite for_each_nil, !bind_Returns. apply IH.
Qed.

(** X10. [parse_dimensions] under the recursion limit. What it returns is
    what it returns on a stack without bound, and has no root twice. It
    returns exactly when the call of [process_relationships] returns for
    every scope it visits; otherwise it leaves with the exception of the
    first scope whose call raises, which is [AttributeError] or
    [RecursionError]. *)
Theorem parse_dimensions_under_recursion_limit spare model_xbrl :
  (∀ dimensions,
     parse_dimensions_within spare model_xbrl = Returns dimensions →
     parse_dimensions model_xbrl = Returns dimensions ∧ NoDup (od_keys dimensions))
  ∧ ((∃ dimensions, parse_dimensions_within spare model_xbrl = Returns dimensions)
     ↔ Forall (λ scope, ∃ h, scope_outcome spare model_xbrl scope = Returns h)
              (visited_scopes model_xbrl))
  ∧ (∀ e, parse_dimensions_within spare model_xbrl = Raises e
          ↔ ∃ before scope after,
              visited_scopes model_xbrl = before ++ scope :: after
              ∧ Forall (λ scope, ∃ h, scope_outcome spare model_xbrl scope = Returns h)
                       before
              ∧ scope_outcome spare model_xbrl scope = Raises e)
  ∧ (∀ e, parse_dimensions_within spare model_xbrl = Raises e →
          e = AttributeError ∨ e = RecursionError)
  ∧ parse_dimensions_within spare model_xbrl ≠ OutOfFuel.
Proof.
  assert (∀ scope,
            match scope_outcome spare model_xbrl scope with
            | Returns _ => True
            | Raises e => e = AttributeError ∨ e = RecursionError
            | OutOfFuel => False
            end) as Hkinds.
  { intros scope. unfold scope_outcome.
    destruct (process_relationships_within_spec spare scope.1
                (relationshipSet_in model_xbrl scope.1 scope.2) scope.2)
      as [Hraise Hreturn].
    destruct (decide (Exists (λ rel, null_qname rel = true)
                        (default [] (relationshipSet_in model_xbrl scope.1 scope.2))))
      as [Hex|Hall%not_Exists_null_qname].
    - destruct (Hraise Hex) as [-> _]. by left.
    - destruct (Hreturn Hall) as (Hout & _).
      destruct (process_relationships_within _ _ _ _) as [h|e|]; [done| |done].
      right. exact Hout. }
  pose proof (for_each_run (scope_outcome spare model_xbrl) update
                (visited_scopes model_xbrl) []) as Hrun.
  rewrite <- parse_dimensions_within_flat in Hrun.
  split; [|split; [|split; [|split]]].
  - intros d Hd. split.
    + rewrite parse_dimensions_flat. rewrite parse_dimensions_within_flat in Hd.
      revert Hd. apply for_each_transfer. intros d0 scope d1 _. unfold scope_outcome.
      destruct (process_relationships_within _ _ _ _) as [h| |] eqn:Hh; [|done|done].
      apply process_relationships_within_returns in Hh as (-> & _). done.
    + rewrite parse_dimensions_within_flat in Hd. revert Hd.
      apply (for_each_invariant _ (λ d, NoDup (od_keys d))); [|apply NoDup_nil_2].
      intros d0 scope d1 _ Hd0.
      destruct (scope_outcome spare model_xbrl scope) as [h| |]; [|done|done].
      rewrite bind_Returns. intros [= <-].
      rewrite update_keys. by apply NoDup_fold_add_new.
  - split.
    + intros [d Hd]. by rewrite Hd in Hrun.
    + intros Hall. rewrite parse_dimensions_within_flat.
      by apply for_each_run_returns.
  - intros e. split.
    + intros He. by rewrite He in Hrun.
    + intros (before & scope & after & Hsplit & Hbefore & Hscope).
      rewrite parse_dimensions_within_flat, Hsplit.
      by apply for_each_run_raises.
  - intros e He. rewrite He in Hrun.
    destruct Hrun as (_ & scope & _ & _ & _ & Hscope).
    specialize (Hkinds scope). by rewrite Hscope in Hkinds.
  - intros Ho. rewrite Ho in Hrun. destruct Hrun as (scope & _ & Hscope).
    specialize (Hkinds scope). by rewrite Hscope in Hkinds.
Qed.

(** *** The role tag *)

Lemma split_nonempty sep s : split sep s ≠ [].
Proof.
  destruct s as [|c s]; [done|]. simpl.
  case_decide; [done|]. by destruct (split sep s).
Qed.

Lemma split_cons_sep s :
  split "/" (String "/" s) = "" :: split "/" s.
Proof. reflexivity. Qed.

Lemma split_cons_other c s seg segs :
  c ≠ "/"%char → split "/" s = seg :: segs →
  split "/" (String c s) = String c seg :: segs.
Proof.
  intros Hc Hs.
  change (split "/" (String c s))
    with (if decide (c = "/"%char) then "" :: split "/" s
          else match split "/" s with
               | [] => [String c ""]
               | seg :: segs => String c seg :: segs
               end).
  by rewrite decide_False, Hs.
Qed.

(** No segment has a slash in it. *)
Lemma split_segments_whole s seg :
  seg ∈ split "/" s → split "/" seg = [seg].
Proof.
  revert seg. induction s as [|c s IH]; intros seg.
  - intros ->%list_elem_of_singleton. done.
  - destruct (decide (c = "/"%char)) as [->|Hc].
    + rewrite split_cons_sep. intros [->|Hin]%elem_of_cons; [done|]. by apply IH.
    + destruct (split "/" s) as [|seg0 segs] eqn:Hs; [by apply split_nonempty in Hs|].
      rewrite (split_cons_other _ _ _ _ Hc Hs).
      intros [->|Hin]%elem_of_cons.
      * apply (split_cons_other _ _ seg0 []); [done|]. apply IH. left.
      * apply IH. by right.
Qed.

Lemma last_cons_nonempty {A} (x : A) l d : l ≠ [] → List.last (x :: l) d = List.last l d.
Proof. by destruct l. Qed.

Lemma last_elem {A} (l : list A) d : l ≠ [] → List.last l d ∈ l.
Proof.
  induction l as [|x l IH]; [done|]. intros _.
  destruct l as [|y l]; [left|]. right. by apply IH.
Qed.

(** X11. The tag of a link role is the text after its last slash, or the
    whole link role when it has no slash; it never holds a slash, and it
    is empty when the link role ends in a slash. *)
Theorem last_segment_is_the_tail elr :
  split "/" (last_segment elr) = [last_segment elr]
  ∧ ((elr = last_segment elr ∧ split "/" elr = [elr])
     ∨ ∃ head, elr = head +:+ "/" +:+ last_segment elr)
  ∧ last_segment (elr +:+ "/") = "".
Proof.
  split; [|split].
  - apply (split_segments_whole elr). apply last_elem, split_nonempty.
  - unfold last_segment. induction elr as [|c elr IH]; [by left|].
    destruct (decide (c = "/"%char)) as [->|Hc].
    + right. rewrite split_cons_sep, last_cons_nonempty by apply split_nonempty.
      destruct IH as [[Heq _]|(head & Heq)].
      * exists "". by rewrite <- Heq.
      * exists (String "/" head). by rewrite Heq at 1.
    + destruct (split "/" elr) as [|seg0 segs] eqn:Hs; [by apply split_nonempty in Hs|].
      rewrite (split_cons_other _ _ _ _ Hc Hs).
      destruct IH as [[Heq Hone]|(head & Heq)].
      * left. injection Hone as -> ->. done.
      * right. destruct segs as [|seg1 segs].
        -- exfalso. simpl in Heq.
           assert (split "/" seg0 = [seg0]) as Hseg0.
           { apply (split_segments_whole elr). rewrite Hs. left. }
           destruct (split_app_sep head seg0 Hseg0) as (seg & pre & Hsplit).
           rewrite <- Heq, Hs in Hsplit. by destruct pre.
        -- exists (String c head). rewrite last_cons_nonempty by done.
           rewrite last_cons_nonempty in Heq by done. by rewrite Heq at 1.
  - rewrite <- (last_segment_app elr "") at 2 by done. done.
Qed.

(** X12. Link roles that differ only before the last slash get the same
    prefix, so their parents of the same local name get the same name. *)
Theorem same_tail_same_prefix head1 head2 tail :
  split "/" tail = [tail] →
  role_prefix (head1 +:+ "/" +:+ tail) = role_prefix (head2 +:+ "/" +:+ tail)
  ∧ role_prefix (head1 +:+ "/" +:+ tail) = "[" +:+ tail +:+ "] ".
Proof.
  intros Htail. unfold role_prefix. by rewrite !last_segment_app.
Qed.

Lemma same_tail_same_prefix_balance :
  role_prefix ("http://a.example/role" +:+ "/" +:+ "Balance")
  = role_prefix ("http://b.example/other" +:+ "/" +:+ "Balance")
  ∧ role_prefix ("http://a.example/role" +:+ "/" +:+ "Balance") = "[" +:+ "Balance" +:+ "] ".
Proof. apply same_tail_same_prefix. reflexivity. Defined.

(** *** The other two fields of the map *)

Lemma get_node_data_vivify k k' m :
  get_node_data (od_vivify default_entry k' m) k = get_node_data m k.
Proof.
  unfold get_node_data. rewrite od_get_vivify.
  destruct (od_get k m); [done|]. by case_decide.
Qed.

Lemma get_node_data_alter f k k' m :
  k' ∈ od_keys m →
  get_node_data (od_alter f k' m) k
  = if decide (k = k') then f (get_node_data m k) else get_node_data m k.
Proof.
  intros Hk'. unfold get_node_data. destruct (decide (k = k')) as [->|Hne].
  - rewrite od_get_alter. by apply od_get_is_Some in Hk' as [e ->].
  - by rewrite od_get_alter_ne.
Qed.

Lemma get_node_data_set k k' e m :
  get_node_data (od_set k' e m) k = if decide (k = k') then e else get_node_data m k.
Proof. unfold get_node_data. rewrite od_get_set. by case_decide. Qed.

Lemma get_node_data_absent k m : k ∉ od_keys m → get_node_data m k = default_entry.
Proof. intros Hk. unfold get_node_data. by rewrite (proj2 (od_get_None k m) Hk). Qed.

Lemma parents_named_snoc c edges pn cn :
  parents_named c (edges ++ [(pn, cn)])
  = if decide (c = cn) then parents_named c edges ++ [pn] else parents_named c edges.
Proof.
  unfold parents_named. rewrite filter_app, fmap_app.
  case_decide as Hc.
  - subst c. by rewrite filter_cons_True.
  - rewrite filter_cons_False by (simpl; congruence). simpl. by rewrite app_nil_r.
Qed.

Lemma first_flag_app k ends ends' :
  first_flag k (ends ++ ends')
  = if decide (k ∈ ends.*1) then first_flag k ends else first_flag k ends'.
Proof.
  unfold first_flag. rewrite filter_app.
  induction ends as [|[k0 b0] ends IH].
  - rewrite decide_False; [done|]. apply not_elem_of_nil.
  - destruct (decide (k0 = k)) as [->|Hne].
    + rewrite filter_cons_True by done. rewrite decide_True; [done|]. left.
    + rewrite filter_cons_False by done. rewrite IH.
      destruct (decide (k ∈ ends.*1)) as [Hin|Hin].
      * rewrite decide_True; [done|]. by right.
      * rewrite decide_False; [done|]. rewrite fmap_cons, not_elem_of_cons. auto.
Qed.

Lemma named_ends_names elr rel :
  (named_ends elr rel).*1
  = match named_edge elr rel with Some (pn, cn) => [pn; cn] | None => [] end.
Proof.
  unfold named_ends, named_edge.
  destruct (fromModelObject rel) as [parent|], (toModelObject rel) as [child|]; try done.
  by destruct (qname parent) as [| |qp], (qname child) as [| |qc].
Qed.

(** One relationship that gets its names: the child's [parent] field is
    overwritten, and only a key that is new gets an [abstract] flag. *)
Lemma record_edge_fields elr m rel pn cn :
  named_edge elr rel = Some (pn, cn) →
  ∃ m', record_edge elr m rel = Returns m'
        ∧ (∀ k, entry_parent (get_node_data m' k)
                = if decide (k = cn) then Some pn else entry_parent (get_node_data m k))
        ∧ ∀ k, entry_abstract (get_node_data m' k)
               = if decide (k ∈ od_keys m) then entry_abstract (get_node_data m k)
                 else first_flag k (named_ends elr rel).
Proof.
  unfold record_edge, named_edge, named_ends, hasattr_qname, qname_localName.
  destruct (fromModelObject rel) as [parent|], (toModelObject rel) as [child|]; try done.
  destruct (qname parent) as [| |qp], (qname child) as [| |qc]; simpl; try done.
  intros [= <- <-].
  set (pn := role_prefix elr +:+ localName qp). set (cn := localName qc).
  set (m1 := if od_mem pn m then m else _).
  set (m2 := if od_mem cn m1 then m1 else _).
  set (m3 := od_alter (set_parent pn) cn _).
  eexists. split; [done|].
  assert (od_keys m1 = add_new pn (od_keys m)
          ∧ ∀ k, get_node_data m1 k
                 = if decide (k = pn ∧ pn ∉ od_keys m)
                   then set_abstract (isAbstract parent) (get_node_data m k)
                   else get_node_data m k) as [Hk1 Hd1].
  { subst m1. destruct (od_mem pn m) eqn:Hmem.
    - apply od_mem_spec in Hmem. split; [symmetry; by apply add_new_elem|].
      intros k. rewrite decide_False; [done|]. intros [_ Hn]. by apply Hn.
    - apply od_mem_false in Hmem. split.
      + unfold od_keys at 1. rewrite od_alter_keys. apply od_vivify_keys.
      + intros k. rewrite get_node_data_alter by apply od_vivify_mem.
        rewrite get_node_data_vivify.
        destruct (decide (k = pn)) as [->|Hne].
        * by rewrite decide_True.
        * rewrite decide_False; [done|]. by intros [? _]. }
  assert (od_keys m2 = add_new cn (od_keys m1)
          ∧ ∀ k, get_node_data m2 k
                 = if decide (k = cn ∧ cn ∉ od_keys m1)
                   then mkEntry (isAbstract child) [] None
                   else get_node_data m1 k) as [Hk2 Hd2].
  { subst m2. destruct (od_mem cn m1) eqn:Hmem.
    - apply od_mem_spec in Hmem. split; [symmetry; by apply add_new_elem|].
      intros k. rewrite decide_False; [done|]. intros [_ Hn]. by apply Hn.
    - split; [by apply od_set_keys_fresh|].
      apply od_mem_false in Hmem. intros k. rewrite get_node_data_set.
      destruct (decide (k = cn)) as [->|Hne].
      * by rewrite decide_True.
      * rewrite decide_False; [done|]. by intros [? _]. }
  assert (cn ∈ od_keys m2 ∧ pn ∈ od_keys m2) as [Hcn Hpn].
  { rewrite Hk2, Hk1. rewrite !elem_of_add_new. auto. }
  assert (od_keys m3 = od_keys m2
          ∧ ∀ k, get_node_data m3 k
                 = if decide (k = cn) then set_parent pn (get_node_data m2 k)
                   else get_node_data m2 k) as [Hk3 Hd3].
  { subst m3. split.
    - unfold od_keys at 1. rewrite od_alter_keys.
      fold (od_keys (od_vivify default_entry cn m2)).
      rewrite od_vivify_keys. by apply add_new_elem.
    - intros k. rewrite get_node_data_alter by apply od_vivify_mem.
      by rewrite get_node_data_vivify. }
  assert (∀ k, get_node_data (od_alter (add_child cn) pn (od_vivify default_entry pn m3)) k
               = if decide (k = pn) then add_child cn (get_node_data m3 k)
                 else get_node_data m3 k) as Hd4.
  { intros k. rewrite get_node_data_alter by apply od_vivify_mem.
    by rewrite get_node_data_vivify. }
  split.
  - intros k. rewrite Hd4.
    assert (entry_parent (get_node_data m3 k)
            = if decide (k = cn) then Some pn else entry_parent (get_node_data m k)) as <-.
    { rewrite Hd3. destruct (decide (k = cn)) as [->|Hne]; [done|].
      rewrite Hd2, decide_False by (by intros [? _]).
      rewrite Hd1. by destruct (decide (k = pn ∧ pn ∉ od_keys m)). }
    by destruct (decide (k = pn)).
  - intros k. rewrite Hd4.
    assert (entry_abstract (get_node_data m2 k)
            = if decide (k ∈ od_keys m) then entry_abstract (get_node_data m k)
              else first_flag k [(pn, isAbstract parent); (cn, isAbstract child)]) as <-.
    { rewrite Hd2, Hd1, Hk1. unfold first_flag.
      destruct (decide (k ∈ od_keys m)) as [Hin|Hin].
      - rewrite decide_False.
        2:{ intros [-> Hn]. apply Hn, elem_of_add_new. by left. }
        rewrite decide_False; [done|]. intros [-> Hn]. by apply Hn.
      - rewrite (get_node_data_absent _ _ Hin).
        destruct (decide (k = pn)) as [->|Hp].
        + rewrite filter_cons_True by done. simpl.
          rewrite decide_False.
          2:{ intros [Heq Hn]. apply Hn, elem_of_add_new. by right. }
          by rewrite decide_True.
        + rewrite filter_cons_False by (simpl; congruence).
          rewrite (decide_False (P := k = pn ∧ pn ∉ od_keys m)) by (by intros [? _]).
          destruct (decide (k = cn)) as [->|Hc].
          * rewrite filter_cons_True by done. simpl.
            rewrite decide_True; [done|]. split; [done|].
            rewrite elem_of_add_new. intros [?|?]; [done|]. by apply Hp.
          * rewrite filter_cons_False by (simpl; congruence).
            rewrite decide_False; [done|]. by intros [? _]. }
    assert (entry_abstract (get_node_data m3 k) = entry_abstract (get_node_data m2 k)) as Hsame.
    { rewrite Hd3. by destruct (decide (k = cn)). }
    destruct (decide (k = pn)); simpl; by rewrite Hsame.
Qed.

Lemma for_each_record_edge_fields elr rels :
  ∀ edges ends m m',
    for_each (record_edge elr) rels m = Returns m' →
    (∀ k, k ∈ od_keys m ↔ k ∈ ends.*1) →
    (∀ k, entry_parent (get_node_data m k) = last (parents_named k edges)) →
    (∀ k, entry_abstract (get_node_data m k) = first_flag k ends) →
    (∀ k, entry_parent (get_node_data m' k)
          = last (parents_named k (edges ++ named_edges elr rels)))
    ∧ ∀ k, entry_abstract (get_node_data m' k)
           = first_flag k (ends ++ (rels ≫= named_ends elr)).
Proof.
  induction rels as [|rel rels IH]; intros edges ends m m' Hrun Hkeys Hp Ha.
  { rewrite for_each_nil in Hrun. injection Hrun as <-.
    change (named_edges elr []) with (@nil (string * string)).
    change ([] ≫= named_ends elr) with (@nil (string * bool)).
    by rewrite !app_nil_r. }
  rewrite for_each_cons in Hrun. rewrite named_edges_cons, bind_cons.
  pose proof (named_ends_names elr rel) as Hnames.
  destruct (named_edge elr rel) as [[pn cn]|] eqn:Hrel.
  - destruct (record_edge_named elr m rel pn cn Hrel) as (m1 & Hm1 & Hk1 & _).
    destruct (record_edge_fields elr m rel pn cn Hrel) as (m1' & Hm1' & Hp1 & Ha1).
    rewrite Hm1 in Hm1'. injection Hm1' as <-.
    rewrite Hm1, bind_Returns in Hrun.
    rewrite (cons_middle (pn, cn)), !app_assoc.
    apply (IH _ _ _ _ Hrun).
    + intros k. rewrite Hk1, !elem_of_add_new, fmap_app, elem_of_app, Hnames, Hkeys.
      rewrite elem_of_cons, list_elem_of_singleton. tauto.
    + intros k. rewrite Hp1, parents_named_snoc.
      case_decide; [|done]. by rewrite last_snoc.
    + intros k. rewrite Ha1, first_flag_app, Ha.
      destruct (decide (k ∈ od_keys m)) as [Hin|Hin].
      * rewrite decide_True; [done|]. by apply Hkeys.
      * rewrite decide_False; [done|]. by rewrite <- Hkeys.
  - destruct (record_edge elr m rel) as [m1| |] eqn:Hm1; try done.
    rewrite bind_Returns in Hrun.
    apply (record_edge_unnamed _ _ _ _ Hrel) in Hm1 as ->.
    destruct (named_ends elr rel) as [|e es]; [|done].
    by apply (IH _ _ _ _ Hrun).
Qed.

(** X13. The other two fields of the map, and the flags of the trees: the
    [parent] field of a name is the parent of the last relationship that
    has it as child, and is [None] for a name that is never a child; the
    [abstract] flag of a name is the [isAbstract] of the first
    relationship end that bears it, later ends with the same name not
    changing it; and every node of every returned tree carries the flag
    of its name. *)
Theorem flags_first_parents_last arcrole relationship_set elr pcm :
  build_map relationship_set elr = Returns pcm →
  (∀ k, entry_parent (get_node_data pcm k)
        = last (parents_named k (named_edges elr (default [] relationship_set))))
  ∧ (∀ k, entry_abstract (get_node_data pcm k)
          = first_flag k (default [] relationship_set ≫= named_ends elr))
  ∧ ∃ h, process_relationships arcrole relationship_set elr = Returns h
         ∧ ∀ root t n, (root, t) ∈ h → n ∈ subnodes t →
             abstract n = first_flag (name n) (default [] relationship_set ≫= named_ends elr).
Proof.
  intros Hmap.
  destruct (for_each_record_edge_fields elr _ [] [] [] pcm Hmap) as [Hp Ha]; try done.
  split; [done|]. split; [done|].
  destruct (build_forest_spec pcm) as (h & Hh & _ & Htrees).
  exists h. split.
  { unfold process_relationships. by rewrite Hmap, bind_Returns. }
  intros root t n Hin Hn.
  by rewrite (built_abstract _ _ _ _ (Htrees _ _ Hin) n Hn), Ha.
Qed.

(** An abstract A and a plain B, both with the child D. *)
Lemma flags_first_parents_last_two_parents :
  (∀ k, entry_parent
          (get_node_data
             [ ("[Balance] A", mkEntry true ["D"] None);
               ("D", mkEntry false [] (Some "[Balance] B"));
               ("[Balance] B", mkEntry false ["D"] None) ] k)
        = last (parents_named k
                  (named_edges Examples.balance_role
                     (default []
                        (Some [ mkRel (Some (mkObject (AttrQName (mkQName "A" "A")) true))
                                      (Some (Examples.concept "D"));
                                Examples.arc "B" "D" ])))))
  ∧ (∀ k, entry_abstract
            (get_node_data
               [ ("[Balance] A", mkEntry true ["D"] None);
                 ("D", mkEntry false [] (Some "[Balance] B"));
                 ("[Balance] B", mkEntry false ["D"] None) ] k)
          = first_flag k
              (default []
                 (Some [ mkRel (Some (mkObject (AttrQName (mkQName "A" "A")) true))
                               (Some (Examples.concept "D"));
                         Examples.arc "B" "D" ])
               ≫= named_ends Examples.balance_role))
  ∧ ∃ h, process_relationships Examples.parent_child
           (Some [ mkRel (Some (mkObject (AttrQName (mkQName "A" "A")) true))
                         (Some (Examples.concept "D"));
                   Examples.arc "B" "D" ])
           Examples.balance_role = Returns h
         ∧ ∀ root t n, (root, t) ∈ h → n ∈ subnodes t →
             abstract n
             = first_flag (name n)
                 (default []
                    (Some [ mkRel (Some (mkObject (AttrQName (mkQName "A" "A")) true))
                                  (Some (Examples.concept "D"));
                            Examples.arc "B" "D" ])
                  ≫= named_ends Examples.balance_role).
Proof.
  apply (flags_first_parents_last Examples.parent_child
           (Some [ mkRel (Some (mkObject (AttrQName (mkQName "A" "A")) true))
                         (Some (Examples.concept "D"));
                   Examples.arc "B" "D" ])
           Examples.balance_role).
  vm_compute. reflexivity.
Defined.

End DimensionExtras.

(** ** More about the formula walker and [parse_formula] *)

Module FormulaExtras.
Import Arelle TaxonomyParser TaxonomyClaims FormulaSpec.

Lemma for_each_progress {A S : Type} (body : S → A → outcome S)
    (I : list A → S → Prop) xs s :
  I [] s →
  (∀ seen x s, I seen s → ∃ s', body s x = Returns s' ∧ I (seen ++ [x]) s') →
  ∃ s', for_each body xs s = Returns s' ∧ I xs s'.
Proof.
  intros Hs Hstep.
  assert (∀ seen s, I seen s →
            ∃ s', for_each body xs s = Returns s' ∧ I (seen ++ xs) s') as Hgen.
  { clear s Hs. induction xs as [|x xs IH]; intros seen s Hs.
    - exists s. by rewrite app_nil_r.
    - destruct (Hstep seen x s Hs) as (s1 & Hs1 & HI1).
      destruct (IH (seen ++ [x]) s1 HI1) as (s' & Hs' & HI').
      exists s'. rewrite for_each_cons, Hs1, bind_Returns.
      split; [done|]. by rewrite <- app_assoc in HI'. }
  apply (Hgen [] s Hs).
Qed.

Section walker_facts.
Context {Obj : Type} `{Countable Obj}.
Variable xlinkLabel : Obj → option string.
Variable localName : Obj → string.
Variable relationship_set : option (Obj → list (option Obj)).

Lemma visit_children_hands_back
    (recurse : Obj → odict formula_entry → gset Obj
               → outcome (odict formula_entry * gset Obj))
    (short : Prop) parent_name (targets : list (option Obj)) :
  (∀ child child_hierarchy visited,
     hands_back short visited (recurse child child_hierarchy visited)) →
  ∀ hierarchy visited,
    hands_back short visited
      (visit_children recurse parent_name targets hierarchy visited).
Proof.
  intros Hrec. induction targets as [|[child|] targets IH]; intros h v; simpl.
  - done.
  - pose proof (Hrec child [] v) as Hc.
    destruct (recurse child [] v) as [[ch v']| |]; simpl in *; [|done|done].
    subst v'. apply IH.
  - apply IH.
Qed.

Lemma hands_back_weaken (P Q : Prop) (visited : gset Obj) o :
  (P → Q) → hands_back P visited o → hands_back Q visited o.
Proof. intros HPQ. destruct o; simpl; auto. Qed.

Lemma hands_back_bind (short : Prop) (inner outer : gset Obj) e
    (k : odict formula_entry * gset Obj → outcome (odict formula_entry * gset Obj)) :
  hands_back short inner e →
  (∀ h, hands_back short outer (k (h, inner))) →
  hands_back short outer (e ≫= k).
Proof.
  intros He Hk. destruct e as [[h v]| |]; simpl in *; [|done|done].
  subst v. apply Hk.
Qed.

Lemma process_formula_object_hands_back max_depth fuel :
  ∀ obj hierarchy visited depth,
    hands_back (fuel + depth ≤ max_depth) visited
      (process_formula_object xlinkLabel localName relationship_set
         fuel obj hierarchy visited depth max_depth).
Proof.
  induction fuel as [|fuel IH]; intros obj h v depth; simpl.
  - case_decide; [done|]. case_decide; [done|]. simpl. lia.
  - case_decide; [done|]. case_decide as Hv; [done|].
    apply (hands_back_bind _ (v ∪ {[obj]})).
    + destruct relationship_set as [from|]; [|done].
      apply visit_children_hands_back. intros child ch v'.
      eapply hands_back_weaken; [|apply IH]. lia.
    + intros h'. simpl. set_solver.
Qed.

Lemma process_formula_object_returns_same max_depth fuel obj hierarchy visited depth :
  max_depth < fuel + depth →
  ∃ h', process_formula_object xlinkLabel localName relationship_set
          fuel obj hierarchy visited depth max_depth = Returns (h', visited).
Proof.
  intros Hfuel.
  pose proof (process_formula_object_hands_back max_depth fuel obj hierarchy visited depth)
    as Hback.
  destruct (process_formula_object_returns xlinkLabel localName relationship_set
              max_depth fuel obj hierarchy visited depth Hfuel) as ([h' v'] & Hr).
  rewrite Hr in Hback. simpl in Hback. subst v'. by exists h'.
Qed.

(** X14. A call of the walker never raises, runs out of fuel only when the
    fuel does not reach the depth bound, and hands [visited] back as it
    got it, whatever it met on the way. *)
Theorem walker_restores_path max_depth fuel obj hierarchy visited depth :
  match process_formula_object xlinkLabel localName relationship_set
          fuel obj hierarchy visited depth max_depth with
  | Returns (_, visited') => visited' = visited
  | Raises _ => False
  | OutOfFuel => fuel + depth ≤ max_depth
  end.
Proof.
  pose proof (process_formula_object_hands_back max_depth fuel obj hierarchy visited depth)
    as Hback.
  by destruct (process_formula_object xlinkLabel localName relationship_set
                 fuel obj hierarchy visited depth max_depth) as [[h' v']| |].
Qed.

(** The loop over the outgoing relationships, for a [recurse] that
    always returns and hands the path back: the entry under
    [parent_name] gains one child per target, nothing else changes. *)
Lemma visit_children_effect
    (recurse : Obj → odict formula_entry → gset Obj
               → outcome (odict formula_entry * gset Obj))
    parent_name (targets : list (option Obj)) :
  (∀ child child_hierarchy visited,
     ∃ h', recurse child child_hierarchy visited = Returns (h', visited)) →
  ∀ hierarchy visited e,
    od_get parent_name hierarchy = Some e →
    ∃ h' new,
      visit_children recurse parent_name targets hierarchy visited = Returns (h', visited)
      ∧ od_keys h' = od_keys hierarchy
      ∧ (∀ k, k ≠ parent_name → od_get k h' = od_get k hierarchy)
      ∧ length new = length (omap id targets)
      ∧ od_get parent_name h' = Some (entry_with (Some e) "" None new).
Proof.
  intros Hrec. induction targets as [|[child|] targets IH]; intros h v e He.
  - exists h, []. destruct e as [t l cs]. simpl. by rewrite app_nil_r.
  - cbn [visit_children]. destruct (Hrec child [] v) as (ch & ->). rewrite bind_Returns.
    destruct (IH (od_alter (append_formula_child ch) parent_name h) v
                 (append_formula_child ch e)) as (h' & new & Hrun & Hk & Ho & Hlen & Hget).
    { by rewrite od_get_alter, He. }
    exists h', (ch :: new). split; [done|]. split.
    { rewrite Hk. unfold od_keys. apply od_alter_keys. }
    split.
    { intros k Hne. rewrite (Ho k Hne). by apply od_get_alter_ne. }
    split.
    { simpl. by rewrite Hlen. }
    rewrite Hget. destruct e as [t l cs]. simpl. by rewrite <- app_assoc.
  - cbn [visit_children]. destruct (IH h v e He) as (h' & new & Hrun & Hk & Ho & Hlen & Hget).
    by exists h', new.
Qed.
End walker_facts.

Section entry_facts.
Context {Obj : Type} `{Countable Obj}.
Variable xlinkLabel : Obj → option string.
Variable localName : Obj → string.
Variable from : Obj → list (option Obj).

(** A call that gets past both guards. *)
Lemma process_formula_object_entry max_depth fuel obj hierarchy visited depth :
  depth ≤ max_depth → obj ∉ visited → max_depth < S fuel + depth →
  ∃ h' new,
    process_formula_object xlinkLabel localName (Some from)
      (S fuel) obj hierarchy visited depth max_depth = Returns (h', visited)
    ∧ od_keys h' = add_new (obj_name xlinkLabel localName obj) (od_keys hierarchy)
    ∧ (∀ k, k ≠ obj_name xlinkLabel localName obj → od_get k h' = od_get k hierarchy)
    ∧ length new = length (omap id (from obj))
    ∧ od_get (obj_name xlinkLabel localName obj) h'
      = Some (entry_with (od_get (obj_name xlinkLabel localName obj) hierarchy)
                (localName obj) (xlinkLabel obj) new).
Proof.
  intros Hdepth Hobj Hfuel. cbn [process_formula_object].
  rewrite decide_False by lia. rewrite decide_False by done.
  set (nm := obj_name xlinkLabel localName obj).
  set (h0 := if od_mem nm hierarchy then hierarchy else _).
  assert (∃ e0, od_get nm h0 = Some e0
                ∧ entry_with (Some e0) "" None
                  = entry_with (od_get nm hierarchy) (localName obj) (xlinkLabel obj))
    as (e0 & He0 & Hentry).
  { subst h0. destruct (od_mem nm hierarchy) eqn:Hmem.
    - apply od_mem_spec, od_get_is_Some in Hmem as [e He]. exists e. by rewrite He.
    - apply od_mem_false, od_get_None in Hmem. eexists. split.
      + rewrite od_get_set. by rewrite decide_True.
      + by rewrite Hmem. }
  assert (od_keys h0 = add_new nm (od_keys hierarchy)
          ∧ ∀ k, k ≠ nm → od_get k h0 = od_get k hierarchy) as [Hk0 Ho0].
  { subst h0. unfold add_new, od_keys. destruct (od_mem nm hierarchy) eqn:Hmem.
    - apply od_mem_spec in Hmem. by rewrite decide_True.
    - pose proof (proj1 (od_mem_false _ _) Hmem) as Hn.
      rewrite decide_False by done. rewrite od_set_fresh by done.
      split; [by rewrite fmap_app|].
      intros k Hne. rewrite od_get_app. simpl. rewrite decide_False by done.
      by destruct (od_get k hierarchy). }
  destruct (visit_children_effect
              (λ child child_hierarchy visited,
                 process_formula_object xlinkLabel localName (Some from)
                   fuel child child_hierarchy visited (S depth) max_depth)
              nm (from obj)) with (hierarchy := h0) (visited := visited ∪ {[obj]}) (e := e0)
    as (h' & new & -> & Hk & Ho & Hlen & Hget); [|done|].
  { intros child ch v. apply process_formula_object_returns_same. lia. }
  rewrite bind_Returns. exists h', new.
  split; [do 2 f_equal; set_solver|].
  split; [by rewrite Hk|].
  split; [intros k Hne; by rewrite Ho, Ho0|].
  split; [done|]. by rewrite Hget, Hentry.
Qed.

(** X15. A walk from a root object, as [parse_formula] starts it: it
    returns with an empty path; the entry under the object's name keeps
    the type and the label it had, or gets the object's if it is new, and
    gains one child dictionary for every outgoing relationship that has
    a target; no other entry changes and no key moves. *)
Theorem root_walk_adds_children obj hierarchy :
  ∃ h' new,
    process_formula_root xlinkLabel localName (Some from) obj hierarchy = Returns (h', ∅)
    ∧ od_keys h' = add_new (obj_name xlinkLabel localName obj) (od_keys hierarchy)
    ∧ (∀ k, k ≠ obj_name xlinkLabel localName obj → od_get k h' = od_get k hierarchy)
    ∧ length new = length (omap id (from obj))
    ∧ od_get (obj_name xlinkLabel localName obj) h'
      = Some (entry_with (od_get (obj_name xlinkLabel localName obj) hierarchy)
                (localName obj) (xlinkLabel obj) new).
Proof.
  apply process_formula_object_entry; [lia|set_solver|lia].
Qed.
End entry_facts.

(** *** The dictionary of [parse_formula] *)

Lemma fd_get_set k k' v d :
  fd_get k (fd_set k' v d) = if decide (k = k') then Some v else fd_get k d.
Proof.
  induction d as [|[k0 v0] d IH]; simpl; [done|].
  destruct (decide (k' = k0)) as [->|Hk0]; simpl.
  - by destruct (decide (k = k0)).
  - rewrite IH. destruct (decide (k = k0)) as [->|?]; [|done].
    by rewrite decide_False.
Qed.

Lemma fd_set_keys k v (d : formula_dict) : (fd_set k v d).*1 = add_new k d.*1.
Proof.
  unfold add_new. induction d as [|[k0 v0] d IH]; [done|].
  cbn [fd_set]. rewrite !fmap_cons. cbn [fst].
  destruct (decide (k = k0)) as [->|Hne].
  - rewrite decide_True by left. done.
  - rewrite fmap_cons, IH. cbn [fst].
    destruct (decide (k ∈ d.*1)) as [Hin|Hnin].
    + rewrite decide_True by (by right). done.
    + rewrite decide_False; [done|]. rewrite elem_of_cons. tauto.
Qed.

Lemma fd_get_is_Some k (d : formula_dict) : is_Some (fd_get k d) ↔ k ∈ d.*1.
Proof.
  induction d as [|[k0 v0] d IH]; simpl.
  - split; [by intros [? ?]|by intros ?%elem_of_nil].
  - rewrite elem_of_cons. case_decide as Hk; [naive_solver|].
    rewrite IH. naive_solver.
Qed.

Section parse_formula_facts.
Context {Obj : Type} `{Countable Obj}.
Variable xlinkLabel : Obj → option string.
Variable localName : Obj → string.
Variable relationshipSet : string → option (Obj → list (option Obj)).
Variable root_objects : list Obj.

(** One turn of the loop over the roots. *)
Lemma visit_root_spec from formula_hierarchy root :
  ∃ fh', visit_root xlinkLabel localName from formula_hierarchy root = Returns fh'
         ∧ fh'.*1 = add_new (xlinkLabel root) formula_hierarchy.*1
         ∧ in_place xlinkLabel localName fh' root
         ∧ ∀ r, in_place xlinkLabel localName formula_hierarchy r
                → in_place xlinkLabel localName fh' r.
Proof.
  unfold visit_root.
  set (key := xlinkLabel root).
  set (fh0 := if fd_mem key formula_hierarchy then formula_hierarchy else _).
  assert (fh0.*1 = add_new key formula_hierarchy.*1
          ∧ ∀ k, k ≠ key → fd_get k fh0 = fd_get k formula_hierarchy) as [Hk0 Ho0].
  { subst fh0. unfold fd_mem. case_bool_decide as Hmem.
    - split; [|done]. unfold add_new. by rewrite decide_True.
    - split; [apply fd_set_keys|]. intros k Hne. rewrite fd_get_set.
      by rewrite decide_False. }
  assert (∀ h, fd_get key formula_hierarchy = Some h → fd_get key fh0 = Some h) as Hsame.
  { intros h Hh. subst fh0. unfold fd_mem. rewrite bool_decide_eq_true_2; [done|].
    apply fd_get_is_Some. by rewrite Hh. }
  destruct (process_formula_object_entry xlinkLabel localName from default_max_depth
              default_max_depth root (default [] (fd_get key fh0)) ∅ 0)
    as (h' & new & Hrun & Hkeys & _); [lia|set_solver|lia|].
  unfold process_formula_root. rewrite Hrun, bind_Returns.
  eexists. split; [done|]. split.
  { rewrite fd_set_keys, Hk0. apply add_new_idem. }
  split.
  { exists h'. split; [by rewrite fd_get_set, decide_True|].
    rewrite Hkeys, elem_of_add_new. by right. }
  intros r (h & Hh & Hr). destruct (decide (xlinkLabel r = key)) as [Heq|Hne].
  - exists h'. split; [rewrite fd_get_set; by rewrite decide_True|].
    rewrite Hkeys, elem_of_add_new. left.
    rewrite Heq in Hh. by rewrite (Hsame _ Hh).
  - exists h. split; [|done]. rewrite fd_get_set, decide_False by done.
    by rewrite Ho0.
Qed.

(** One pass over the roots, under one arc-role. *)
Lemma visit_roots_spec from formula_hierarchy :
  NoDup formula_hierarchy.*1 →
  ∃ fh', for_each (visit_root xlinkLabel localName from) root_objects formula_hierarchy
         = Returns fh'
         ∧ NoDup fh'.*1
         ∧ (∀ k, k ∈ fh'.*1 → k ∈ formula_hierarchy.*1 ∨ k ∈ xlinkLabel <$> root_objects)
         ∧ ∀ root, root ∈ root_objects → in_place xlinkLabel localName fh' root.
Proof.
  intros Hnd.
  destruct (for_each_progress (visit_root xlinkLabel localName from)
              (λ seen fh',
                 NoDup fh'.*1
                 ∧ (∀ k, k ∈ fh'.*1 → k ∈ formula_hierarchy.*1 ∨ k ∈ xlinkLabel <$> seen)
                 ∧ ∀ root, root ∈ seen → in_place xlinkLabel localName fh' root)
              root_objects formula_hierarchy) as (fh' & Hrun & HI); [| |by exists fh'].
  - split; [done|]. split; [by left|]. by intros root ?%elem_of_nil.
  - intros seen root fh (Hnd1 & Hsub & Hplaced).
    destruct (visit_root_spec from fh root) as (fh1 & Hfh1 & Hkeys & Hroot & Hkeep).
    exists fh1. split; [done|]. split; [|split].
    + rewrite Hkeys. by apply NoDup_add_new.
    + intros k. rewrite Hkeys, elem_of_add_new, fmap_app, elem_of_app.
      intros [Hk| ->]; [destruct (Hsub k Hk); auto|].
      right. right. simpl. left.
    + intros r [Hr| ->%list_elem_of_singleton]%elem_of_app; [|done].
      by apply Hkeep, Hplaced.
Qed.

(** X16. [parse_formula] returns on every input. The keys of what it
    returns are labels of root objects, each once. If one of the three
    formula arc-roles has a relationship set, every root object is in
    place: its label is a key and its own name is a key of the dictionary
    stored there; if none has, the result is empty however many root
    objects there are. *)
Theorem parse_formula_places_roots :
  ∃ fh, parse_formula xlinkLabel localName relationshipSet root_objects = Returns fh
        ∧ NoDup fh.*1
        ∧ (∀ k, k ∈ fh.*1 → k ∈ xlinkLabel <$> root_objects)
        ∧ ((∃ arcrole, arcrole ∈ formula_arcroles ∧ is_Some (relationshipSet arcrole)) →
           ∀ root, root ∈ root_objects → in_place xlinkLabel localName fh root)
        ∧ ((∀ arcrole, arcrole ∈ formula_arcroles → relationshipSet arcrole = None) →
           fh = []).
Proof.
  unfold parse_formula.
  destruct (for_each_progress
              (λ (formula_hierarchy : formula_dict) (arcrole : string),
                 match relationshipSet arcrole with
                 | Some from =>
                     for_each (visit_root xlinkLabel localName from) root_objects
                       formula_hierarchy
                 | None => Returns formula_hierarchy
                 end)
              (λ seen fh,
                 NoDup fh.*1
                 ∧ (∀ k, k ∈ fh.*1 → k ∈ xlinkLabel <$> root_objects)
                 ∧ ((∃ arcrole, arcrole ∈ seen ∧ is_Some (relationshipSet arcrole)) →
                    ∀ root, root ∈ root_objects → in_place xlinkLabel localName fh root)
                 ∧ ((∀ arcrole, arcrole ∈ seen → relationshipSet arcrole = None) →
                    fh = []))
              formula_arcroles []) as (fh & Hrun & HI); [| |by exists fh].
  - split; [apply NoDup_nil_2|]. split; [by intros k ?%elem_of_nil|].
    split; [|done]. by intros (a & ?%elem_of_nil & _).
  - intros seen arcrole fh (Hnd & Hsub & Hsome & Hnone).
    destruct (relationshipSet arcrole) as [from|] eqn:Hset.
    + destruct (visit_roots_spec from fh Hnd) as (fh' & Hfh' & Hnd' & Hsub' & Hplaced).
      exists fh'. split; [done|]. split; [done|]. split; [|split].
      * intros k Hk. destruct (Hsub' k Hk); auto.
      * done.
      * intros Hall. specialize (Hall arcrole). rewrite Hset in Hall.
        discriminate Hall. apply elem_of_app. right. left.
    + exists fh. split; [done|]. split; [done|]. split; [done|]. split.
      * intros (a & [Ha| ->%list_elem_of_singleton]%elem_of_app & Hsm).
        -- apply Hsome. eauto.
        -- rewrite Hset in Hsm. by destruct Hsm.
      * intros Hall. apply Hnone. intros a Ha. apply Hall, elem_of_app. by left.
Qed.
End parse_formula_facts.
End FormulaExtras.
